(** * The HTTP communicator of the ATSD storage driver

    A shallow embedding of [storage/httpCommunicator.go]: the command-to-wire
    transformers, the retry executor, the dispatch loop with its counters,
    and the two submission paths, followed by the properties proved of them. *)

From Stdlib Require Import ZArith.
From stdpp Require Import gmap strings list fin_maps.

(** ** Go maps and their iteration order

    A Go [map[string]V] is a finite map; [for k, v := range m] visits every
    entry once, in an order the language leaves unspecified.  The order is a
    parameter of the model: any enumeration that is a permutation of the
    entries.  Everything below is proved for every such enumeration.  An
    enumeration is a function of the map, so one run of the model visits a
    map the same way each time, where Go may not; the stated properties are
    each about one run and do not depend on the order, and where two runs
    are compared each has an enumeration of its own. *)

Class GoRange : Type := {
  range_kv : ∀ {V : Type}, gmap string V → list (string * V);
  range_kv_perm : ∀ {V : Type} (m : gmap string V), range_kv m ≡ₚ map_to_list m
}.

(** One admissible enumeration: the order of stdpp's [map_to_list]. *)
Definition listed_range : GoRange :=
  {| range_kv := λ V m, map_to_list m;
     range_kv_perm := λ V m, reflexivity (map_to_list m) |}.

(** Another one: the same entries, last to first. *)
Definition reversed_range : GoRange :=
  {| range_kv := λ V m, reverse (map_to_list m);
     range_kv_perm := λ V m, reverse_Permutation (map_to_list m) |}.

(** ** Panics

    A Go function that may [panic] returns [Panic] with the panic value. *)

Inductive result (A : Type) : Type :=
  | Ok (a : A)
  | Panic (msg : string).
Arguments Ok {A} a.
Arguments Panic {A} msg.

(** A [for ... range] loop whose body may panic: the loop stops at the first
    panic. *)
Fixpoint range_loop {A B} (body : A → B → result A) (acc : A) (l : list B) : result A :=
  match l with
  | [] => Ok acc
  | x :: l' =>
      match body acc x with
      | Ok acc' => range_loop body acc' l'
      | Panic msg => Panic msg
      end
  end.

(** ** Commands ([atsd-api-go/net]) *)

(** [net.Millis]: a timestamp in milliseconds. *)
Definition Millis : Type := Z.

(** [net.Number]: the value of a sample.  [net.Int64] is the constructor the
    communicator itself uses; the transformers never look inside a value. *)
Inductive Number : Type :=
  | Int64 (v : Z)
  | Float64 (bits : Z).

Global Instance Number_eq_dec : EqDecision Number.
Proof. solve_decision. Defined.

Module SeriesCommand.
(** Modelled from the spec: [net.SeriesCommand], declared outside this file;
    "an entity name, a mapping of tags (string→string), optionally a
    timestamp, and [a] metric-name→value mapping".  The fields are read
    through the accessors of the same names. *)
Record t : Type := mk {
  Entity : string;
  Metrics : gmap string Number;
  Tags : gmap string string;
  Timestamp : option Millis
}.
End SeriesCommand.

Module EntityTagCommand.
(** Modelled from the spec: [net.EntityTagCommand], an entity name and its
    tags. *)
Record t : Type := mk {
  Entity : string;
  Tags : gmap string string
}.
End EntityTagCommand.

Module PropertyCommand.
(** Modelled from the spec: [net.PropertyCommand], "type, entity, key, full
    tag set, optional timestamp". *)
Record t : Type := mk {
  PropType : string;
  Entity : string;
  Key : gmap string string;
  Tags : gmap string string;
  Timestamp : option Millis
}.
End PropertyCommand.

Module MessageCommand.
(** Modelled from the spec: [net.MessageCommand], "entity, message text",
    tags and an optional timestamp. *)
Record t : Type := mk {
  Entity : string;
  Message : string;
  Tags : gmap string string;
  Timestamp : option Millis
}.
End MessageCommand.

(** ** Wire objects ([atsd-api-go/http]) *)

Module Sample.
Record t : Type := mk { T : Millis; V : Number }.
End Sample.

Module Series.
Record t : Type := mk {
  Entity : string;
  Metric : string;
  Tags : gmap string string;
  Data : list Sample.t
}.
(** [s.Data = append(s.Data, sample)] *)
Definition append_Data (sample : Sample.t) (s : t) : t :=
  {| Entity := Entity s; Metric := Metric s; Tags := Tags s;
     Data := Data s ++ [sample] |}.
End Series.

(** ** Chunk *)

Module Chunk.
(** Modelled from the spec: [Chunk], declared in another file of the
    package; "an ordered, mutable, poppable sequence of SeriesCommand,
    consumed destructively by the transformer (front-to-back removal)".
    [Front] is the first element ([None] for Go's [nil]) and [Remove] takes
    the front element out. *)
Definition t : Type := list SeriesCommand.t.
Definition Len (c : t) : nat := length c.
Definition Front (c : t) : option SeriesCommand.t := head c.
Definition Remove (c : t) : t := tail c.
End Chunk.

(** ** Series transformers *)

Section series_transformers.
Context {order : GoRange}.

(** The body of [for key, val := range metrics] in [seriesCommandsToSeries]. *)
Definition series_of_metric (command : SeriesCommand.t) (timestamp : Millis)
    (series : list Series.t) (kv : string * Number) : list Series.t :=
  series ++
    [ {| Series.Entity := SeriesCommand.Entity command;
         Series.Metric := kv.1;
         Series.Tags := SeriesCommand.Tags command;
         Series.Data := [ {| Sample.T := timestamp; Sample.V := kv.2 |} ] |} ].

(** The loop [for _, command := range seriesCommands], entered with the
    slice [series] built so far. *)
Fixpoint seriesCommandsToSeries_loop (series : list Series.t)
    (seriesCommands : list SeriesCommand.t) : result (list Series.t) :=
  match seriesCommands with
  | [] => Ok series
  | command :: rest =>
      let metrics := SeriesCommand.Metrics command in
      match SeriesCommand.Timestamp command with
      | None => Panic "Nil timestamp!"
      | Some timestamp =>
          seriesCommandsToSeries_loop
            (foldl (series_of_metric command timestamp) series (range_kv metrics))
            rest
      end
  end.

Definition seriesCommandsToSeries (seriesCommands : list SeriesCommand.t)
    : result (list Series.t) :=
  seriesCommandsToSeries_loop [] seriesCommands.

(** The body of [for key, val := range metrics] in
    [seriesCommandsChunkToSeries]: create the entry of [key] if it is
    missing, check the timestamp, append the sample. *)
Definition chunk_sample (seriesCommand : SeriesCommand.t)
    (seriesMap : gmap string Series.t) (kv : string * Number)
    : result (gmap string Series.t) :=
  let key := kv.1 in
  let seriesMap :=
    match seriesMap !! key with
    | Some _ => seriesMap
    | None =>
        <[key := {| Series.Entity := SeriesCommand.Entity seriesCommand;
                    Series.Metric := key;
                    Series.Tags := SeriesCommand.Tags seriesCommand;
                    Series.Data := [] |}]> seriesMap
    end in
  match SeriesCommand.Timestamp seriesCommand with
  | None => Panic "Nil timestamp!"
  | Some timestamp =>
      Ok (alter (Series.append_Data {| Sample.T := timestamp; Sample.V := kv.2 |})
                key seriesMap)
  end.

(** The loop [for el := Front(); el != nil; el = Front()] with its closing
    [Remove(el)]: it returns the map and what is left of the chunk. *)
Fixpoint drain (seriesCommandsChunk : Chunk.t) (seriesMap : gmap string Series.t)
    : result (gmap string Series.t * Chunk.t) :=
  match seriesCommandsChunk with
  | [] => Ok (seriesMap, seriesCommandsChunk)
  | seriesCommand :: removed =>
      match range_loop (chunk_sample seriesCommand) seriesMap
                       (range_kv (SeriesCommand.Metrics seriesCommand)) with
      | Ok seriesMap' => drain removed seriesMap'
      | Panic msg => Panic msg
      end
  end.

(** [seriesCommandsChunkToSeries] returns the wire objects and leaves the
    chunk, which it mutates, in the state of the second component. *)
Definition seriesCommandsChunkToSeries (seriesCommandsChunk : Chunk.t)
    : result (list Series.t * Chunk.t) :=
  if decide (0 < Chunk.Len seriesCommandsChunk) then
    match drain seriesCommandsChunk ∅ with
    | Ok (seriesMap, drained) =>
        Ok (foldl (λ series kv, series ++ [kv.2]) [] (range_kv seriesMap), drained)
    | Panic msg => Panic msg
    end
  else Ok ([], seriesCommandsChunk).

End series_transformers.

(** *** Vocabulary of the series claims *)

(** The command carries a timestamp. *)
Definition stamped (c : SeriesCommand.t) : Prop := is_Some (SeriesCommand.Timestamp c).
(** The command's metric mapping is not empty. *)
Definition populated (c : SeriesCommand.t) : Prop := SeriesCommand.Metrics c ≠ ∅.
(** The command's metric mapping has the metric name [key]. *)
Definition has_metric (key : string) (c : SeriesCommand.t) : Prop :=
  is_Some (SeriesCommand.Metrics c !! key).

Global Instance stamped_dec c : Decision (stamped c).
Proof. unfold stamped. apply _. Defined.
Global Instance populated_dec c : Decision (populated c).
Proof. unfold populated. apply _. Defined.
Global Instance has_metric_dec key c : Decision (has_metric key c).
Proof. unfold has_metric. apply _. Defined.

(** The distinct metric names of a batch. *)
Definition distinct_metrics (cmds : list SeriesCommand.t) : gset string :=
  ⋃ ((λ c, dom (SeriesCommand.Metrics c)) <$> cmds).

(** The number of (command, metric) pairs of a batch. *)
Definition metric_pairs (cmds : list SeriesCommand.t) : nat :=
  sum_list ((λ c, size (SeriesCommand.Metrics c)) <$> cmds).

(** The sample a command contributes to the metric [key], if any. *)
Definition sample_of (key : string) (c : SeriesCommand.t) : option Sample.t :=
  match SeriesCommand.Metrics c !! key, SeriesCommand.Timestamp c with
  | Some v, Some ts => Some {| Sample.T := ts; Sample.V := v |}
  | _, _ => None
  end.

(** The samples of [key] in the order of the chunk. *)
Definition samples_of (key : string) (cmds : list SeriesCommand.t) : list Sample.t :=
  omap (sample_of key) cmds.

(** The first command of the chunk that has the metric [key]. *)
Definition first_with (key : string) (cmds : list SeriesCommand.t) : option SeriesCommand.t :=
  head (filter (has_metric key) cmds).

(** No metric name occurs in two commands of the batch. *)
Fixpoint metrics_disjoint (cmds : list SeriesCommand.t) : Prop :=
  match cmds with
  | [] => True
  | c :: rest =>
      dom (SeriesCommand.Metrics c) ## distinct_metrics rest ∧ metrics_disjoint rest
  end.

(** The entry the loop creates for a key it has not seen. *)
Definition fresh_series (c : SeriesCommand.t) (key : string) : Series.t :=
  {| Series.Entity := SeriesCommand.Entity c; Series.Metric := key;
     Series.Tags := SeriesCommand.Tags c; Series.Data := [] |}.

(** What one command does to the entry of [key]. *)
Definition grow (c : SeriesCommand.t) (key : string) (o : option Series.t) : option Series.t :=
  match sample_of key c with
  | Some smp => Some (Series.append_Data smp (default (fresh_series c key) o))
  | None => o
  end.

(** What a run of commands does to the entry of [key]. *)
Definition grouped (key : string) (cmds : list SeriesCommand.t) (o : option Series.t)
    : option Series.t :=
  foldl (λ o c, grow c key o) o cmds.

(** The grouped series of [key]: taken from the first command that has the
    metric, with the samples of all of them. *)
Definition grouped_series (key : string) (cmds : list SeriesCommand.t) : option Series.t :=
  match first_with key cmds with
  | Some c =>
      Some {| Series.Entity := SeriesCommand.Entity c; Series.Metric := key;
              Series.Tags := SeriesCommand.Tags c; Series.Data := samples_of key cmds |}
  | None => None
  end.

(** The spec's words for the tags of a grouped series, "the union of all
    matching commands' tags" (on a key two commands disagree on, the first
    command's value). *)
Definition tags_union (key : string) (cmds : list SeriesCommand.t) : gmap string string :=
  ⋃ (SeriesCommand.Tags <$> filter (has_metric key) cmds).

(** ** Entity, property and message transformers *)

Module Entity.
(** Modelled from the spec: [http.Entity], "a wire Entity keyed by entity
    name" with "entity-level tags"; [NewEntity] starts with no tag and
    [SetTag] writes one. *)
Record t : Type := mk { Name : string; Tags : gmap string string }.
Definition NewEntity (name : string) : t := {| Name := name; Tags := ∅ |}.
Definition SetTag (key value : string) (e : t) : t :=
  {| Name := Name e; Tags := <[key := value]> (Tags e) |}.
End Entity.

Module Property.
(** Modelled from the spec: [http.Property], "type, entity, key, full tag
    set copied verbatim, optional timestamp if present". *)
Record t : Type := mk {
  PropType : string;
  Entity : string;
  Key : gmap string string;
  Tags : gmap string string;
  Timestamp : option Millis
}.
Definition NewProperty (propType entity : string) : t :=
  {| PropType := propType; Entity := entity; Key := ∅; Tags := ∅; Timestamp := None |}.
Definition SetKey (key : gmap string string) (p : t) : t :=
  {| PropType := PropType p; Entity := Entity p; Key := key; Tags := Tags p;
     Timestamp := Timestamp p |}.
Definition SetAllTags (tags : gmap string string) (p : t) : t :=
  {| PropType := PropType p; Entity := Entity p; Key := Key p; Tags := tags ∪ Tags p;
     Timestamp := Timestamp p |}.
Definition SetTimestamp (ts : Millis) (p : t) : t :=
  {| PropType := PropType p; Entity := Entity p; Key := Key p; Tags := Tags p;
     Timestamp := Some ts |}.
End Property.

Module Message.
(** Modelled from the spec: [http.Message], "entity, message text", generic
    tags, the "dedicated wire fields" of severity, source and type, and an
    "optional timestamp".  A dedicated field is [None] until its setter
    runs; [http.Severity(val)] is a conversion of the string. *)
Record t : Type := mk {
  Entity : string;
  Text : string;
  Severity : option string;
  Source : option string;
  Type_ : option string;
  Tags : gmap string string;
  Timestamp : option Millis
}.
Definition NewMessage (entity : string) : t :=
  {| Entity := entity; Text := EmptyString; Severity := None; Source := None;
     Type_ := None; Tags := ∅; Timestamp := None |}.
Definition SetMessage (text : string) (m : t) : t :=
  {| Entity := Entity m; Text := text; Severity := Severity m; Source := Source m;
     Type_ := Type_ m; Tags := Tags m; Timestamp := Timestamp m |}.
Definition SetSeverity (severity : string) (m : t) : t :=
  {| Entity := Entity m; Text := Text m; Severity := Some severity; Source := Source m;
     Type_ := Type_ m; Tags := Tags m; Timestamp := Timestamp m |}.
Definition SetSource (source : string) (m : t) : t :=
  {| Entity := Entity m; Text := Text m; Severity := Severity m; Source := Some source;
     Type_ := Type_ m; Tags := Tags m; Timestamp := Timestamp m |}.
Definition SetType (type : string) (m : t) : t :=
  {| Entity := Entity m; Text := Text m; Severity := Severity m; Source := Source m;
     Type_ := Some type; Tags := Tags m; Timestamp := Timestamp m |}.
Definition SetTag (key val : string) (m : t) : t :=
  {| Entity := Entity m; Text := Text m; Severity := Severity m; Source := Source m;
     Type_ := Type_ m; Tags := <[key := val]> (Tags m); Timestamp := Timestamp m |}.
Definition SetTimestamp (ts : Millis) (m : t) : t :=
  {| Entity := Entity m; Text := Text m; Severity := Severity m; Source := Source m;
     Type_ := Type_ m; Tags := Tags m; Timestamp := Some ts |}.
End Message.

Section record_transformers.
Context {order : GoRange}.

Definition entityTagCommandToEntity (command : EntityTagCommand.t) : Entity.t :=
  foldl (λ entity kv, Entity.SetTag kv.1 kv.2 entity)
        (Entity.NewEntity (EntityTagCommand.Entity command))
        (range_kv (EntityTagCommand.Tags command)).

Definition entityTagCommandsToEntities (entityTagCommands : list EntityTagCommand.t)
    : list Entity.t :=
  foldl (λ entities command, entities ++ [entityTagCommandToEntity command])
        [] entityTagCommands.

Definition propertyCommandToProperty (propertyCommand : PropertyCommand.t) : Property.t :=
  let property :=
    Property.SetAllTags (PropertyCommand.Tags propertyCommand)
      (Property.SetKey (PropertyCommand.Key propertyCommand)
        (Property.NewProperty (PropertyCommand.PropType propertyCommand)
                              (PropertyCommand.Entity propertyCommand))) in
  match PropertyCommand.Timestamp propertyCommand with
  | Some ts => Property.SetTimestamp ts property
  | None => property
  end.

Definition propertyCommandsToProperties (propertyCommands : list PropertyCommand.t)
    : list Property.t :=
  foldl (λ properties propertyCommand,
           properties ++ [propertyCommandToProperty propertyCommand])
        [] propertyCommands.

(** The body of [for key, val := range messageCommand.Tags()]: three
    independent [if]s, then [SetTag] in every case. *)
Definition message_tag (message : Message.t) (kv : string * string) : Message.t :=
  let key := kv.1 in
  let val := kv.2 in
  let message := if decide (key = "severity") then Message.SetSeverity val message else message in
  let message := if decide (key = "source") then Message.SetSource val message else message in
  let message := if decide (key = "type") then Message.SetType val message else message in
  Message.SetTag key val message.

Definition messageCommandToMessage (messageCommand : MessageCommand.t) : Message.t :=
  let message :=
    Message.SetMessage (MessageCommand.Message messageCommand)
      (Message.NewMessage (MessageCommand.Entity messageCommand)) in
  let message := foldl message_tag message (range_kv (MessageCommand.Tags messageCommand)) in
  match MessageCommand.Timestamp messageCommand with
  | Some ts => Message.SetTimestamp ts message
  | None => message
  end.

Definition messageCommandsToProperties (messageCommands : list MessageCommand.t)
    : list Message.t :=
  foldl (λ messages messageCommand, messages ++ [messageCommandToMessage messageCommand])
        [] messageCommands.

End record_transformers.

(** ** Counters *)

(** [atomic.AddUint64]: addition modulo 2^64. *)
Definition AddUint64 (x delta : Z) : Z := ((x + delta) `mod` 2 ^ 64)%Z.

(** The conversion [net.Int64(x)] of a [uint64]: the same 64 bits read as a
    signed integer. *)
Definition Int64_of_uint64 (x : Z) : Number :=
  Int64 (if decide (x < 2 ^ 63)%Z then x else (x - 2 ^ 64)%Z).

Module counter.
(** [struct{ sent, dropped uint64 }] *)
Record t : Type := mk { sent : Z; dropped : Z }.
Definition zero : t := {| sent := 0; dropped := 0 |}.
(** [atomic.AddUint64(&c.sent, delta)] *)
Definition add_sent (delta : Z) (c : t) : t :=
  {| sent := AddUint64 (sent c) delta; dropped := dropped c |}.
End counter.

Module httpCounters.
Record t : Type := mk {
  series : counter.t;
  entityTag : counter.t;
  prop : counter.t;
  messages : counter.t
}.
(** [&httpCounters{}] *)
Definition zero : t :=
  {| series := counter.zero; entityTag := counter.zero;
     prop := counter.zero; messages := counter.zero |}.
Definition on_series (f : counter.t → counter.t) (c : t) : t :=
  {| series := f (series c); entityTag := entityTag c; prop := prop c; messages := messages c |}.
Definition on_entityTag (f : counter.t → counter.t) (c : t) : t :=
  {| series := series c; entityTag := f (entityTag c); prop := prop c; messages := messages c |}.
Definition on_prop (f : counter.t → counter.t) (c : t) : t :=
  {| series := series c; entityTag := entityTag c; prop := f (prop c); messages := messages c |}.
Definition on_messages (f : counter.t → counter.t) (c : t) : t :=
  {| series := series c; entityTag := entityTag c; prop := prop c; messages := f (messages c) |}.
End httpCounters.

(** ** The Store Client, the backoff policy and the communicator's state *)

(** An error value returned by the Store Client. *)
Definition Err : Type := string.

(** [time.Duration]: nanoseconds. *)
Definition Millisecond : Z := 1000000.
Definition Minute : Z := 60000000000.

(** The write operations of the Store Client. *)
Inductive ClientOp : Type :=
  | EntitiesUpdate (entity : Entity.t)
  | EntitiesCreate (entity : Entity.t)
  | PropertiesInsert (properties : list Property.t)
  | MessagesInsert (messages : list Message.t)
  | SeriesInsert (series : list Series.t).

(** The Store Client is an external collaborator: a state [W] of the store
    and its connection, a response to every write (an error or [None] for
    [nil]) with the state that follows, and the scheme of its URL. *)
Class StoreClient (W : Type) : Type := {
  respond : ClientOp → W → option Err * W;
  UrlScheme : string
}.

(** Modelled from the spec: the Backoff Policy ([ExpBackoff], declared in
    another file of the package).  "[new(initial, ceiling)] → state.
    [next()] returns the current wait duration then grows it [...].
    [reset()] restores the duration to [initial]."  [Duration] is the
    source's name of [next()]; it returns the wait and the state after. *)
Class Backoff (B : Type) : Type := {
  NewExpBackoff : Z → Z → B;
  Duration : B → Z * B;
  Reset : B → B
}.

(** What [glog.Error] is given. *)
Inductive LogArg : Type :=
  | LStr (s : string)
  | LErr (e : Err)
  | LDur (d : Z).

(** What the communicator does to the outside, in order. *)
Inductive Event : Type :=
  | EvCall (op : ClientOp) (err : option Err)
  | EvError (args : list LogArg)
  | EvSleep (d : Z).

(** What a producer offers on one of the four channels. *)
Inductive Inbox : Type :=
  | OnEntityTag (entityTag : list EntityTagCommand.t)
  | OnPropertyCommands (propertyCommands : list PropertyCommand.t)
  | OnMessageCommands (messageCommands : list MessageCommand.t)
  | OnSeriesChunk (seriesChunk : Chunk.t).

Module HttpCommunicator.
(** [HttpCommunicator]: the client, the counters, and the four unbuffered
    channels, kept as the values offered on them and not yet received.
    [trace] records the outside effects. *)
Record t (W : Type) : Type := mk {
  client : W;
  counters : httpCounters.t;
  offered : list Inbox;
  trace : list Event
}.
Arguments mk {W}.
Arguments client {W}.
Arguments counters {W}.
Arguments offered {W}.
Arguments trace {W}.
End HttpCommunicator.

(** How a run of communicator code ends: it returns, it is still retrying
    after the steps observed, or the process has panicked. *)
Inductive outcome (A : Type) : Type :=
  | Done (a : A)
  | Retrying
  | Crashed (msg : string).
Arguments Done {A} a.
Arguments Retrying {A}.
Arguments Crashed {A} msg.

(** Communicator code: a function of the state. *)
Definition M (W A : Type) : Type := HttpCommunicator.t W → outcome A * HttpCommunicator.t W.

Definition ret {W A} (a : A) : M W A := λ hc, (Done a, hc).

Definition bind {W A A'} (m : M W A) (k : A → M W A') : M W A' :=
  λ hc,
    match m hc with
    | (Done a, hc') => k a hc'
    | (Retrying, hc') => (Retrying, hc')
    | (Crashed msg, hc') => (Crashed msg, hc')
    end.

Declare Scope comm_scope.
Delimit Scope comm_scope with comm.
Notation "x <- m ;; k" := (bind m (λ x, k))
  (at level 100, m at next level, right associativity) : comm_scope.
Notation "m ;;; k" := (bind m (λ _, k))
  (at level 100, right associativity) : comm_scope.

(** [panic(msg)] *)
Definition crash {W A} (msg : string) : M W A := λ hc, (Crashed msg, hc).

Definition emit {W} (ev : Event) : M W unit :=
  λ hc, (Done tt,
         {| HttpCommunicator.client := HttpCommunicator.client hc;
            HttpCommunicator.counters := HttpCommunicator.counters hc;
            HttpCommunicator.offered := HttpCommunicator.offered hc;
            HttpCommunicator.trace := HttpCommunicator.trace hc ++ [ev] |}).

Definition glog_Error {W} (args : list LogArg) : M W unit := emit (EvError args).
Definition time_Sleep {W} (d : Z) : M W unit := emit (EvSleep d).

(** A call of a Store Client operation. *)
Definition call {W} {store : StoreClient W} (op : ClientOp) : M W (option Err) :=
  λ hc,
    let r := respond op (HttpCommunicator.client hc) in
    (Done r.1,
     {| HttpCommunicator.client := r.2;
        HttpCommunicator.counters := HttpCommunicator.counters hc;
        HttpCommunicator.offered := HttpCommunicator.offered hc;
        HttpCommunicator.trace := HttpCommunicator.trace hc ++ [EvCall op r.1] |}).

(** [atomic.AddUint64(&hc.counters.<kind>.sent, delta)], [on] choosing the kind. *)
Definition atomic_AddUint64_sent {W}
    (on : (counter.t → counter.t) → httpCounters.t → httpCounters.t) (delta : Z) : M W unit :=
  λ hc, (Done tt,
         {| HttpCommunicator.client := HttpCommunicator.client hc;
            HttpCommunicator.counters := on (counter.add_sent delta) (HttpCommunicator.counters hc);
            HttpCommunicator.offered := HttpCommunicator.offered hc;
            HttpCommunicator.trace := HttpCommunicator.trace hc |}).

(** A send on one of the channels.  The channels are unbuffered: the send
    blocks until the dispatch loop receives the value, and the loop does not
    receive while it retries.  The model records the value as offered and
    lets the sender go on, so it says nothing about whether or when the
    sender returns; it has every interleaving of the program and more, and
    is used only for what holds in all of them. *)
Definition offer {W} (v : Inbox) : M W unit :=
  λ hc, (Done tt,
         {| HttpCommunicator.client := HttpCommunicator.client hc;
            HttpCommunicator.counters := HttpCommunicator.counters hc;
            HttpCommunicator.offered := HttpCommunicator.offered hc ++ [v];
            HttpCommunicator.trace := HttpCommunicator.trace hc |}).

(** [for _, x := range l { body }], the body threading a value. *)
Fixpoint for_each {W A S} (body : A → S → M W S) (l : list A) (s : S) : M W S :=
  match l with
  | [] => ret s
  | x :: l' => (s' <- body x s ;; for_each body l' s')%comm
  end.

(** ** Retry executor, dispatch loop and submission paths *)

Section communicator.
Context {W : Type} {store : StoreClient W} {B : Type} {policy : Backoff B} {order : GoRange}.

Local Open Scope comm_scope.

(** [tryWhileNotComplete]: the loop [for firstTime || hasErrors] runs its
    body once and then again after every failure.  The loop has no bound of
    its own; [fuel] bounds the iterations that are observed, and a run that
    uses them all up is still [Retrying].  [expBackoff] is the policy object
    the caller shares; its state after the call is the result. *)
Fixpoint tryWhileNotComplete (fuel : nat) (task : M W (option Err)) (taskName : string)
    (expBackoff : B) : M W B :=
  match fuel with
  | O => λ hc, (Retrying, hc)
  | S fuel' =>
      err <- task ;;
      match err with
      | Some e =>
          let waitDuration := (Duration expBackoff).1 in
          glog_Error [LStr "Could not perform "; LStr taskName; LStr ": "; LErr e;
                      LStr "waiting for "; LDur waitDuration] ;;;
          time_Sleep waitDuration ;;;
          tryWhileNotComplete fuel' task taskName (Duration expBackoff).2
      | None => ret (Reset expBackoff)
      end
  end.

(** The body of [for _, entity := range entities] in the dispatch loop. *)
Definition dispatch_entity (fuel : nat) (entity : Entity.t) (expBackoff : B) : M W B :=
  err <- call (EntitiesUpdate entity) ;;
  expBackoff' <-
    match err with
    | Some _ =>
        tryWhileNotComplete fuel (call (EntitiesCreate entity)) "entity update" expBackoff
    | None => ret expBackoff
    end ;;
  atomic_AddUint64_sent httpCounters.on_entityTag 1 ;;;
  ret expBackoff'.

(** One iteration of the dispatch loop of [NewHttpCommunicator], for the
    value [received] that its [select] took from a channel. *)
Definition dispatch (fuel : nat) (received : Inbox) : M W unit :=
  let expBackoff : B := NewExpBackoff (100 * Millisecond) (5 * Minute) in
  expBackoff' <-
    match received with
    | OnEntityTag entityTag =>
        let entities := entityTagCommandsToEntities entityTag in
        for_each (dispatch_entity fuel) entities expBackoff
    | OnPropertyCommands propertyCommands =>
        if decide (0 < length propertyCommands) then
          let properties := propertyCommandsToProperties propertyCommands in
          expBackoff' <- tryWhileNotComplete fuel (call (PropertiesInsert properties))
                           "properties insert" expBackoff ;;
          atomic_AddUint64_sent httpCounters.on_prop (Z.of_nat (length properties)) ;;;
          ret expBackoff'
        else ret expBackoff
    | OnMessageCommands messageCommands =>
        if decide (0 < length messageCommands) then
          let messages := messageCommandsToProperties messageCommands in
          expBackoff' <- tryWhileNotComplete fuel (call (MessagesInsert messages))
                           "messages insert" expBackoff ;;
          atomic_AddUint64_sent httpCounters.on_messages (Z.of_nat (length messages)) ;;;
          ret expBackoff'
        else ret expBackoff
    | OnSeriesChunk seriesChunk =>
        match seriesCommandsChunkToSeries seriesChunk with
        | Panic msg => crash msg
        | Ok (series, _) =>
            if decide (0 < length series) then
              expBackoff' <- tryWhileNotComplete fuel (call (SeriesInsert series))
                               "series insert" expBackoff ;;
              atomic_AddUint64_sent httpCounters.on_series (Z.of_nat (length series)) ;;;
              ret expBackoff'
            else ret expBackoff
        end
    end ;;
  let _ := Reset expBackoff' in
  ret tt.

(** [QueuedSendData]: one send per channel, then one per chunk. *)
Definition QueuedSendData (seriesCommandsChunk : list Chunk.t)
    (entityTagCommands : list EntityTagCommand.t)
    (propertyCommands : list PropertyCommand.t)
    (messageCommands : list MessageCommand.t) : M W unit :=
  offer (OnPropertyCommands propertyCommands) ;;;
  offer (OnEntityTag entityTagCommands) ;;;
  offer (OnMessageCommands messageCommands) ;;;
  for_each (λ val _, offer (OnSeriesChunk val)) seriesCommandsChunk tt.

(** The body of [for _, entity := range entities] in [PriorSendData]. *)
Definition prior_entity (entity : Entity.t) (_ : unit) : M W unit :=
  err <- call (EntitiesUpdate entity) ;;
  match err with
  | Some _ =>
      err <- call (EntitiesCreate entity) ;;
      match err with
      | Some e => glog_Error [LStr "Could not prior send entity update: "; LErr e]
      | None => ret tt
      end
  | None => ret tt
  end.

(** [if err != nil { glog.Error(prefix, err) }] *)
Definition log_if_failed (prefix : string) (err : option Err) : M W unit :=
  match err with
  | Some e => glog_Error [LStr prefix; LErr e]
  | None => ret tt
  end.

Definition PriorSendData (seriesCommands : list SeriesCommand.t)
    (entityTagCommands : list EntityTagCommand.t)
    (propertyCommands : list PropertyCommand.t)
    (messageCommands : list MessageCommand.t) : M W unit :=
  let entities := entityTagCommandsToEntities entityTagCommands in
  for_each prior_entity entities tt ;;;
  (if decide (0 < length propertyCommands) then
     let properties := propertyCommandsToProperties propertyCommands in
     err <- call (PropertiesInsert properties) ;;
     log_if_failed "Could not prior send property: " err
   else ret tt) ;;;
  (if decide (0 < length seriesCommands) then
     match seriesCommandsToSeries seriesCommands with
     | Panic msg => crash msg
     | Ok series =>
         err <- call (SeriesInsert series) ;;
         log_if_failed "Could not prior send series: " err
     end
   else ret tt) ;;;
  (if decide (0 < length messageCommands) then
     let messages := messageCommandsToProperties messageCommands in
     err <- call (MessagesInsert messages) ;;
     log_if_failed "Could not prior send message: " err
   else ret tt).

(** [NewHttpCommunicator]: fresh channels and zeroed counters. *)
Definition NewHttpCommunicator (client : W) : HttpCommunicator.t W :=
  {| HttpCommunicator.client := client;
     HttpCommunicator.counters := httpCounters.zero;
     HttpCommunicator.offered := [];
     HttpCommunicator.trace := [] |}.

(** The dispatch loop receives the [i]-th offered value. *)
Definition receive (i : nat) (hc : HttpCommunicator.t W) : HttpCommunicator.t W :=
  {| HttpCommunicator.client := HttpCommunicator.client hc;
     HttpCommunicator.counters := HttpCommunicator.counters hc;
     HttpCommunicator.offered := delete i (HttpCommunicator.offered hc);
     HttpCommunicator.trace := HttpCommunicator.trace hc |}.

(** The moves of the communicator: a producer calls [QueuedSendData] or
    [PriorSendData], or the dispatch loop takes one offered value (any of
    them: [select] and the scheduling of producers are not ordered) and runs
    an iteration on it, observed for [fuel] retries.  The state a move ends
    in is kept whatever its outcome.  A producer of the program waits for
    each of its values to be received before it sends the next; the moves
    allow that order and others, so the states of the program are among the
    states reached here. *)
Inductive step : HttpCommunicator.t W → HttpCommunicator.t W → Prop :=
  | step_queued chunks entityTags properties messages hc :
      step hc (QueuedSendData chunks entityTags properties messages hc).2
  | step_prior seriesCommands entityTags properties messages hc :
      step hc (PriorSendData seriesCommands entityTags properties messages hc).2
  | step_dispatch fuel i received hc :
      HttpCommunicator.offered hc !! i = Some received →
      step hc (dispatch fuel received (receive i hc)).2.

(** The states the communicator built on [client] can be in. *)
Definition reachable (client : W) (hc : HttpCommunicator.t W) : Prop :=
  rtc step (NewHttpCommunicator client) hc.

End communicator.

(** ** Self-reporting *)

Record metricValue : Type := {
  name : string;
  tags : gmap string string;
  value : Number
}.

Definition SelfMetricValues {W} {store : StoreClient W} (self : HttpCommunicator.t W)
    : list metricValue :=
  let c := HttpCommunicator.counters self in
  let transport : gmap string string := {[ "transport" := UrlScheme ]} in
  [ {| name := "series-commands.sent"; tags := transport;
       value := Int64_of_uint64 (counter.sent (httpCounters.series c)) |};
    {| name := "series-commands.dropped"; tags := transport;
       value := Int64_of_uint64 (counter.dropped (httpCounters.series c)) |};
    {| name := "message-commands.sent"; tags := transport;
       value := Int64_of_uint64 (counter.sent (httpCounters.messages c)) |};
    {| name := "message-commands.dropped"; tags := transport;
       value := Int64_of_uint64 (counter.dropped (httpCounters.messages c)) |};
    {| name := "property-commands.sent"; tags := transport;
       value := Int64_of_uint64 (counter.sent (httpCounters.prop c)) |};
    {| name := "property-commands.dropped"; tags := transport;
       value := Int64_of_uint64 (counter.dropped (httpCounters.prop c)) |};
    {| name := "entitytag-commands.sent"; tags := transport;
       value := Int64_of_uint64 (counter.sent (httpCounters.entityTag c)) |};
    {| name := "entitytag-commands.dropped"; tags := transport;
       value := Int64_of_uint64 (counter.dropped (httpCounters.entityTag c)) |} ].

(** ** Vocabulary of the communicator claims *)

(** The Store Client calls, the sleeps and the log lines of a trace. *)
Definition calls (evs : list Event) : list (ClientOp * option Err) :=
  omap (λ ev, match ev with EvCall op err => Some (op, err) | _ => None end) evs.
Definition sleeps (evs : list Event) : list Z :=
  omap (λ ev, match ev with EvSleep d => Some d | _ => None end) evs.
Definition errors_logged (evs : list Event) : list (list LogArg) :=
  omap (λ ev, match ev with EvError args => Some args | _ => None end) evs.

Section retry_vocabulary.
Context {W : Type} {store : StoreClient W} {B : Type} {policy : Backoff B}.

(** The first [n] waits a policy object hands out, and the object after
    them. *)
Fixpoint durations (n : nat) (expBackoff : B) : list Z :=
  match n with
  | O => []
  | S n' => (Duration expBackoff).1 :: durations n' (Duration expBackoff).2
  end.
Fixpoint advance (n : nat) (expBackoff : B) : B :=
  match n with
  | O => expBackoff
  | S n' => advance n' (Duration expBackoff).2
  end.

(** The store after [n] invocations of [op]. *)
Fixpoint world_after (n : nat) (op : ClientOp) (w : W) : W :=
  match n with
  | O => w
  | S n' => world_after n' op (respond op w).2
  end.

(** From the store [w] on, [op] fails on its first [N] invocations and
    succeeds on the next. *)
Fixpoint fails_then_succeeds (N : nat) (op : ClientOp) (w : W) : Prop :=
  match N with
  | O => (respond op w).1 = None
  | S N' => is_Some (respond op w).1 ∧ fails_then_succeeds N' op (respond op w).2
  end.

(** From the store [w] on, [op] fails on every invocation. *)
Definition always_fails (op : ClientOp) (w : W) : Prop :=
  ∀ n, is_Some (respond op (world_after n op w)).1.

End retry_vocabulary.

(** The four dropped counters. *)
Definition dropped_counters (c : httpCounters.t) : Z * Z * Z * Z :=
  (counter.dropped (httpCounters.series c), counter.dropped (httpCounters.entityTag c),
   counter.dropped (httpCounters.prop c), counter.dropped (httpCounters.messages c)).

(** The metric values of [SelfMetricValues] that report a dropped counter. *)
Definition is_dropped_metric (mv : metricValue) : Prop :=
  name mv ∈ [ "series-commands.dropped"; "message-commands.dropped";
              "property-commands.dropped"; "entitytag-commands.dropped" ].

(** The names under which [SelfMetricValues] reports the dropped counters. *)
Definition dropped_metric_names : list string :=
  [ "series-commands.dropped"; "message-commands.dropped";
    "property-commands.dropped"; "entitytag-commands.dropped" ].

(** Communicator code that leaves an aspect [f] of the counters as it
    found it, however it ends. *)
Definition preserves {W A X} (f : httpCounters.t → X) (m : M W A) : Prop :=
  ∀ hc, f (HttpCommunicator.counters (m hc).2) = f (HttpCommunicator.counters hc).

(** ** Vocabulary of the further properties *)

(** The wire Series [seriesCommandsToSeries] makes of one metric of a
    command. *)
Definition single_sample_series (c : SeriesCommand.t) (ts : Millis) (key : string)
    (val : Number) : Series.t :=
  {| Series.Entity := SeriesCommand.Entity c; Series.Metric := key;
     Series.Tags := SeriesCommand.Tags c;
     Series.Data := [ {| Sample.T := ts; Sample.V := val |} ] |}.

(** The samples held by a list of wire Series, and by the map of the chunked
    transformer. *)
Definition samples_total (series : list Series.t) : nat :=
  sum_list_with (λ s, length (Series.Data s)) series.
Definition samples_held (seriesMap : gmap string Series.t) : nat :=
  sum_list_with (λ kv, length (Series.Data kv.2)) (map_to_list seriesMap).

(** The event is no sleep; the event is no call of [Series.Insert] or
    [Messages.Insert]. *)
Definition no_sleep (ev : Event) : Prop :=
  match ev with EvSleep _ => False | _ => True end.
Definition no_series_or_message_insert (ev : Event) : Prop :=
  match ev with
  | EvCall (SeriesInsert _) _ | EvCall (MessagesInsert _) _ => False
  | _ => True
  end.

(** Communicator code that only appends to the trace, events that satisfy
    [P], with at most [n] Store Client calls among them, and that leaves the
    offered values alone and never stays in a retry loop. *)
Definition direct {W A} (P : Event → Prop) (n : nat) (m : M W A) : Prop :=
  ∀ hc, ∃ evs,
    HttpCommunicator.trace (m hc).2 = HttpCommunicator.trace hc ++ evs
    ∧ Forall P evs
    ∧ length (calls evs) ≤ n
    ∧ HttpCommunicator.offered (m hc).2 = HttpCommunicator.offered hc
    ∧ (m hc).1 ≠ Retrying.

(** ** Test doubles *)

(** A scripted store: it answers the successive calls with the responses of
    its script and succeeds once the script is used up. *)
Definition scripted_client : StoreClient (list (option Err)) :=
  {| respond := λ _ script,
       match script with
       | [] => (None, [])
       | r :: script' => (r, script')
       end;
     UrlScheme := "https" |}.

(** A store that is down: every call fails. *)
Definition unreachable_client : StoreClient unit :=
  {| respond := λ _ _, (Some "connection refused", tt); UrlScheme := "https" |}.

Module ExpBackoff.
(** Modelled from the spec: [ExpBackoff], declared in another file of the
    package.  "[next()] returns the current wait duration then grows it
    geometrically (factor left to implementer, e.g. ×2) capped at
    [ceiling].  [reset()] restores the duration to [initial]." *)
Record t : Type := mk { current : Z; initial : Z; ceiling : Z }.
Definition New (initial ceiling : Z) : t :=
  {| current := initial; initial := initial; ceiling := ceiling |}.
Definition next (b : t) : Z * t :=
  (current b,
   {| current := Z.min (2 * current b) (ceiling b); initial := initial b;
      ceiling := ceiling b |}).
Definition reset (b : t) : t :=
  {| current := initial b; initial := initial b; ceiling := ceiling b |}.
End ExpBackoff.

Definition exp_backoff : Backoff ExpBackoff.t :=
  {| NewExpBackoff := ExpBackoff.New; Duration := ExpBackoff.next; Reset := ExpBackoff.reset |}.

(** A store that refuses two calls and then accepts. *)
Definition flaky_store : list (option Err) := [Some "503"; Some "503"; None].

(** A store that refuses one call and then accepts. *)
Definition refusing_once : list (option Err) := [Some "503"].

(** *** Sample commands *)

(** Two readings of the metric [cpu] of one host, tagged differently. *)
Definition cpu_first : SeriesCommand.t :=
  {| SeriesCommand.Entity := "host-1";
     SeriesCommand.Metrics := {[ "cpu" := Int64 10 ]};
     SeriesCommand.Tags := {[ "zone" := "a" ]};
     SeriesCommand.Timestamp := Some 1000%Z |}.

Definition cpu_second : SeriesCommand.t :=
  {| SeriesCommand.Entity := "host-1";
     SeriesCommand.Metrics := {[ "cpu" := Int64 20 ]};
     SeriesCommand.Tags := {[ "rack" := "r7" ]};
     SeriesCommand.Timestamp := Some 2000%Z |}.

(** A reading of [cpu] that lost its timestamp. *)
Definition cpu_unstamped : SeriesCommand.t :=
  {| SeriesCommand.Entity := "host-1";
     SeriesCommand.Metrics := {[ "cpu" := Int64 30 ]};
     SeriesCommand.Tags := ∅;
     SeriesCommand.Timestamp := None |}.

(** A reading of two metrics of one host. *)
Definition host_load : SeriesCommand.t :=
  {| SeriesCommand.Entity := "host-1";
     SeriesCommand.Metrics := {[ "cpu" := Int64 10; "mem" := Int64 20 ]};
     SeriesCommand.Tags := ∅;
     SeriesCommand.Timestamp := Some 1000%Z |}.

(** A command with neither a metric nor a timestamp (the zero value of the
    struct but for its entity). *)
Definition bare_command : SeriesCommand.t :=
  {| SeriesCommand.Entity := "host-1";
     SeriesCommand.Metrics := ∅;
     SeriesCommand.Tags := ∅;
     SeriesCommand.Timestamp := None |}.

(** The series the chunked transformer groups [cpu_first] and [cpu_second]
    into. *)
Definition cpu_grouped : Series.t :=
  {| Series.Entity := "host-1"; Series.Metric := "cpu";
     Series.Tags := {[ "zone" := "a" ]};
     Series.Data := [ {| Sample.T := 1000%Z; Sample.V := Int64 10 |};
                      {| Sample.T := 2000%Z; Sample.V := Int64 20 |} ] |}.

(** A warning message and an entity-tag command. *)
Definition disk_warning : MessageCommand.t :=
  {| MessageCommand.Entity := "host-1";
     MessageCommand.Message := "disk almost full";
     MessageCommand.Tags := {[ "severity" := "WARNING" ]};
     MessageCommand.Timestamp := None |}.

Definition host_tags : EntityTagCommand.t :=
  {| EntityTagCommand.Entity := "host-1";
     EntityTagCommand.Tags := {[ "os" := "linux" ]} |}.

Definition host_entity : Entity.t :=
  {| Entity.Name := "host-1"; Entity.Tags := {[ "os" := "linux" ]} |}.

(** A run of the communicator on [flaky_store]: one producer calls
    [QueuedSendData] with an empty property batch, one entity-tag command,
    one message and one chunk, and the dispatch loop receives the four
    values in the order they are sent, observed for 5 retries each.  The
    entity's update and first creation are refused. *)
Definition serve_next (received : Inbox) (hc : HttpCommunicator.t (list (option Err)))
    : HttpCommunicator.t (list (option Err)) :=
  (@dispatch _ scripted_client _ exp_backoff listed_range 5 received (receive 0 hc)).2.

Definition sample_state : HttpCommunicator.t (list (option Err)) :=
  serve_next (OnSeriesChunk [cpu_first; cpu_second])
    (serve_next (OnMessageCommands [disk_warning])
       (serve_next (OnEntityTag [host_tags])
          (serve_next (OnPropertyCommands [])
             (QueuedSendData [[cpu_first; cpu_second]] [host_tags] [] [disk_warning]
                (NewHttpCommunicator flaky_store)).2))).

(** A property command, for the runs of the dispatch loop. *)
Definition host_property : PropertyCommand.t :=
  {| PropertyCommand.PropType := "docker.host";
     PropertyCommand.Entity := "host-1";
     PropertyCommand.Key := ∅;
     PropertyCommand.Tags := {[ "kernel" := "6.1" ]};
     PropertyCommand.Timestamp := None |}.

(** A run of the dispatch loop on a batch of two entity-tag commands, the
    first of which has its update refused. *)
Definition entities_state : HttpCommunicator.t (list (option Err)) :=
  (@dispatch _ scripted_client _ exp_backoff listed_range 5
     (OnEntityTag [host_tags; host_tags]) (NewHttpCommunicator refusing_once)).2.

(** * Properties *)

(** ** Iteration order *)

Section range_facts.
Context {order : GoRange}.

Lemma range_kv_elem {V} (m : gmap string V) k v :
  (k, v) ∈ range_kv m ↔ m !! k = Some v.
Proof. rewrite range_kv_perm. apply elem_of_map_to_list. Qed.

Lemma range_kv_NoDup {V} (m : gmap string V) : NoDup (range_kv m).*1.
Proof. rewrite range_kv_perm. apply NoDup_fst_map_to_list. Qed.

Lemma range_kv_length {V} (m : gmap string V) : length (range_kv m) = size m.
Proof. rewrite range_kv_perm. apply length_map_to_list. Qed.

Lemma range_kv_to_map {V} (m : gmap string V) : list_to_map (range_kv m) = m.
Proof.
  rewrite <- (list_to_map_to_list m) at 2.
  apply list_to_map_proper; [apply range_kv_NoDup | apply range_kv_perm].
Qed.

Lemma range_kv_empty {V} : range_kv (∅ : gmap string V) = [].
Proof. apply length_zero_iff_nil. by rewrite range_kv_length, map_size_empty. Qed.

End range_facts.

(** A map whose values know their own key: the values under one key, picked
    out of the listed values, are the entry of that key. *)
Lemma filter_values_by_key {V} (key_of : V → string) (m : gmap string V) (key : string) :
  (∀ k v, m !! k = Some v → key_of v = k) →
  filter (λ v, key_of v = key) (map_to_list m).*2 ≡ₚ option_list (m !! key).
Proof.
  induction m as [|i x m Hi IH] using map_ind; intros Hkeys.
  - by rewrite map_to_list_empty, lookup_empty.
  - rewrite map_to_list_insert by done. simpl.
    assert (key_of x = i) as Hx by (apply Hkeys, lookup_insert_eq).
    assert (∀ k v, m !! k = Some v → key_of v = k) as Hm.
    { intros k v Hkv. apply Hkeys. rewrite lookup_insert_ne; [done|congruence]. }
    rewrite filter_cons. destruct (decide (key_of x = key)) as [Heq|Hne].
    + assert (i = key) as -> by congruence.
      rewrite lookup_insert_eq. simpl. rewrite (IH Hm), Hi. done.
    + rewrite lookup_insert_ne by congruence. by apply IH.
Qed.

Lemma option_list_Permutation {A} (l : list A) (o : option A) :
  l ≡ₚ option_list o → l = option_list o.
Proof.
  destruct o as [x|]; simpl; intros Hl.
  - by apply Permutation_singleton_r.
  - by apply Permutation_nil_r.
Qed.

(** ** The non-chunked series transformer *)

Section series_facts.
Context {order : GoRange}.

Lemma foldl_series_of_metric_length command timestamp series l :
  length (foldl (series_of_metric command timestamp) series l) = length series + length l.
Proof.
  revert series. induction l as [|kv l IH]; intros series; simpl; [lia|].
  rewrite IH. unfold series_of_metric. rewrite length_app. simpl. lia.
Qed.

Lemma seriesCommandsToSeries_loop_stamped cmds series :
  Forall stamped cmds →
  ∃ out, seriesCommandsToSeries_loop series cmds = Ok out
         ∧ length out = length series + metric_pairs cmds.
Proof.
  intros Hst. revert series.
  induction Hst as [|c cmds [ts Hts] _ IH]; intros series; simpl.
  - exists series. unfold metric_pairs. simpl. split; [done|lia].
  - rewrite Hts. destruct (IH (foldl (series_of_metric c ts) series
                                     (range_kv (SeriesCommand.Metrics c))))
      as (out & Hout & Hlen).
    exists out. split; [done|].
    rewrite Hlen, foldl_series_of_metric_length, range_kv_length.
    change (metric_pairs (c :: cmds))
      with (size (SeriesCommand.Metrics c) + metric_pairs cmds).
    lia.
Qed.

Lemma seriesCommandsToSeries_loop_nil_timestamp cmds series :
  Exists (λ c, SeriesCommand.Timestamp c = None) cmds →
  seriesCommandsToSeries_loop series cmds = Panic "Nil timestamp!".
Proof.
  intros Hex. revert series.
  induction Hex as [c cmds Hc|c cmds _ IH]; intros series; simpl.
  - by rewrite Hc.
  - destruct (SeriesCommand.Timestamp c); [apply IH|done].
Qed.

(** When no metric name occurs in two commands, the pairs are as many as
    the distinct names. *)
Lemma metric_pairs_disjoint cmds :
  metrics_disjoint cmds → metric_pairs cmds = size (distinct_metrics cmds).
Proof.
  induction cmds as [|c cmds IH]; simpl.
  - intros _. done.
  - intros [Hdisj Hrest].
    change (distinct_metrics (c :: cmds))
      with (dom (SeriesCommand.Metrics c) ∪ distinct_metrics cmds).
    change (metric_pairs (c :: cmds))
      with (size (SeriesCommand.Metrics c) + metric_pairs cmds).
    rewrite size_union by done. rewrite size_dom. by rewrite IH.
Qed.

(** ** The chunked series transformer *)

(** [drain] is the source's loop: it stops when [Front] is nil, and
    otherwise goes on with the chunk [Remove] leaves. *)
Lemma drain_Front_Remove (seriesCommandsChunk : Chunk.t) (seriesMap : gmap string Series.t) :
  drain seriesCommandsChunk seriesMap =
  match Chunk.Front seriesCommandsChunk with
  | None => Ok (seriesMap, seriesCommandsChunk)
  | Some seriesCommand =>
      match range_loop (chunk_sample seriesCommand) seriesMap
                       (range_kv (SeriesCommand.Metrics seriesCommand)) with
      | Ok seriesMap' => drain (Chunk.Remove seriesCommandsChunk) seriesMap'
      | Panic msg => Panic msg
      end
  end.
Proof. by destruct seriesCommandsChunk. Qed.

Lemma chunk_sample_loop c ts (l : list (string * Number)) (seriesMap : gmap string Series.t) :
  SeriesCommand.Timestamp c = Some ts →
  NoDup l.*1 →
  ∃ seriesMap', range_loop (chunk_sample c) seriesMap l = Ok seriesMap'
    ∧ ∀ k, seriesMap' !! k =
           match (list_to_map l : gmap string Number) !! k with
           | Some v => Some (Series.append_Data {| Sample.T := ts; Sample.V := v |}
                               (default (fresh_series c k) (seriesMap !! k)))
           | None => seriesMap !! k
           end.
Proof.
  intros Hts. revert seriesMap.
  induction l as [|[k0 v0] l IH]; intros seriesMap Hnd; simpl.
  - exists seriesMap. split; [done|]. intros k. by rewrite lookup_empty.
  - apply NoDup_cons in Hnd as [Hk0 Hnd].
    unfold chunk_sample at 1. rewrite Hts. simpl.
    match goal with |- context [range_loop _ ?m l] => destruct (IH m Hnd) as (sm' & Hrun & Hsm') end.
    exists sm'. split; [done|]. intros k. rewrite Hsm'.
    destruct (decide (k = k0)) as [->|Hne].
    + rewrite lookup_insert_eq.
      rewrite (proj1 (not_elem_of_list_to_map _ _)) by done.
      rewrite lookup_alter_eq.
      destruct (seriesMap !! k0) as [s|] eqn:Hs; simpl.
      * by rewrite Hs.
      * by rewrite lookup_insert_eq.
    + rewrite lookup_insert_ne by done.
      destruct (list_to_map l !! k) as [v|];
        rewrite lookup_alter_ne by done;
        destruct (seriesMap !! k0); by rewrite ?lookup_insert_ne by done.
Qed.

Lemma chunk_sample_range c (seriesMap : gmap string Series.t) :
  stamped c →
  ∃ seriesMap', range_loop (chunk_sample c) seriesMap (range_kv (SeriesCommand.Metrics c))
                = Ok seriesMap'
    ∧ ∀ k, seriesMap' !! k = grow c k (seriesMap !! k).
Proof.
  intros [ts Hts].
  destruct (chunk_sample_loop c ts (range_kv (SeriesCommand.Metrics c)) seriesMap Hts
              (range_kv_NoDup _)) as (sm' & Hrun & Hsm').
  exists sm'. split; [done|]. intros k. rewrite Hsm', range_kv_to_map.
  unfold grow, sample_of. rewrite Hts.
  by destruct (SeriesCommand.Metrics c !! k).
Qed.

Lemma drain_stamped cmds (seriesMap : gmap string Series.t) :
  Forall stamped cmds →
  ∃ seriesMap', drain cmds seriesMap = Ok (seriesMap', [])
    ∧ ∀ k, seriesMap' !! k = grouped k cmds (seriesMap !! k).
Proof.
  intros Hst. revert seriesMap.
  induction Hst as [|c cmds Hc _ IH]; intros seriesMap; simpl.
  - by exists seriesMap.
  - destruct (chunk_sample_range c seriesMap Hc) as (sm1 & -> & Hsm1).
    destruct (IH sm1) as (sm' & Hrun & Hsm').
    exists sm'. split; [done|]. intros k. by rewrite Hsm', Hsm1.
Qed.

Lemma chunk_sample_loop_nil_timestamp c kv (l : list (string * Number))
    (seriesMap : gmap string Series.t) :
  SeriesCommand.Timestamp c = None →
  range_loop (chunk_sample c) seriesMap (kv :: l) = Panic "Nil timestamp!".
Proof. intros Hts. simpl. unfold chunk_sample. by rewrite Hts. Qed.

Lemma chunk_sample_loop_panic c (l : list (string * Number))
    (seriesMap : gmap string Series.t) msg :
  range_loop (chunk_sample c) seriesMap l = Panic msg → msg = "Nil timestamp!".
Proof.
  revert seriesMap. induction l as [|kv l IH]; intros seriesMap; simpl; [done|].
  unfold chunk_sample at 1. destruct (SeriesCommand.Timestamp c).
  - apply IH.
  - by intros [= <-].
Qed.

Lemma drain_nil_timestamp cmds (seriesMap : gmap string Series.t) :
  Exists (λ c, SeriesCommand.Timestamp c = None ∧ populated c) cmds →
  drain cmds seriesMap = Panic "Nil timestamp!".
Proof.
  intros Hex. revert seriesMap.
  induction Hex as [c cmds [Hts Hpop]|c cmds _ IH]; intros seriesMap; simpl.
  - destruct (range_kv (SeriesCommand.Metrics c)) as [|kv l] eqn:Hl.
    + exfalso. apply Hpop, map_size_empty_inv.
      by rewrite <- range_kv_length, Hl.
    + by rewrite chunk_sample_loop_nil_timestamp.
  - destruct (range_loop _ _ _) as [sm|msg] eqn:Hrun; [apply IH|].
    by apply chunk_sample_loop_panic in Hrun as ->.
Qed.

Lemma foldl_snoc_snd {K V} (l : list (K * V)) (acc : list V) :
  foldl (λ series kv, series ++ [kv.2]) acc l = acc ++ l.*2.
Proof.
  revert acc. induction l as [|kv l IH]; intros acc; simpl.
  - by rewrite app_nil_r.
  - rewrite IH. by rewrite <- app_assoc.
Qed.

Lemma grouped_Some key cmds s :
  grouped key cmds (Some s) =
  Some {| Series.Entity := Series.Entity s; Series.Metric := Series.Metric s;
          Series.Tags := Series.Tags s; Series.Data := Series.Data s ++ samples_of key cmds |}.
Proof.
  revert s. induction cmds as [|c cmds IH]; intros s; simpl.
  - unfold samples_of. simpl. rewrite app_nil_r. by destruct s.
  - unfold grow, samples_of. simpl. destruct (sample_of key c) as [smp|]; simpl.
    + rewrite IH. simpl. by rewrite <- app_assoc.
    + apply IH.
Qed.

Lemma sample_of_stamped key c :
  stamped c →
  match sample_of key c with
  | Some _ => has_metric key c
  | None => ¬ has_metric key c
  end.
Proof.
  intros [ts Hts]. unfold sample_of, has_metric. rewrite Hts.
  destruct (SeriesCommand.Metrics c !! key); [eauto|]. by intros [? ?].
Qed.

Lemma grouped_None key cmds :
  Forall stamped cmds → grouped key cmds None = grouped_series key cmds.
Proof.
  induction 1 as [|c cmds Hc _ IH]; [done|].
  change (grouped key (c :: cmds) None) with (grouped key cmds (grow c key None)).
  unfold grouped_series, first_with, samples_of. rewrite filter_cons.
  change (omap (sample_of key) (c :: cmds))
    with (match sample_of key c with
          | Some y => y :: omap (sample_of key) cmds
          | None => omap (sample_of key) cmds
          end).
  unfold grow. pose proof (sample_of_stamped key c Hc) as Hs.
  destruct (sample_of key c) as [smp|].
  - rewrite decide_True by done. simpl. by rewrite grouped_Some.
  - rewrite decide_False by done. apply IH.
Qed.

Lemma grouped_series_Metric key cmds s :
  grouped_series key cmds = Some s → Series.Metric s = key.
Proof.
  unfold grouped_series. destruct (first_with key cmds); [|done].
  by intros [= <-].
Qed.

(** The chunked transformer on a chunk of stamped commands: it returns, the
    chunk is empty, and the series of each key is [grouped_series]. *)
Lemma seriesCommandsChunkToSeries_stamped cmds :
  Forall stamped cmds →
  ∃ series, seriesCommandsChunkToSeries cmds = Ok (series, [])
    ∧ length series = size (distinct_metrics cmds)
    ∧ ∀ key, filter (λ s, Series.Metric s = key) series
             = option_list (grouped_series key cmds).
Proof.
  intros Hst. unfold seriesCommandsChunkToSeries.
  destruct (drain_stamped cmds ∅ Hst) as (sm & Hrun & Hsm).
  assert (∀ k, sm !! k = grouped_series k cmds) as Hsm'.
  { intros k. by rewrite Hsm, lookup_empty, grouped_None. }
  assert (dom sm = distinct_metrics cmds) as Hdom.
  { apply set_eq. intros k. rewrite elem_of_dom, Hsm'.
    unfold distinct_metrics. rewrite elem_of_union_list.
    unfold grouped_series, first_with. split.
    - intros [s Hs]. destruct (head _) as [c|] eqn:Hc; [|done].
      apply head_Some_elem_of, list_elem_of_filter in Hc as [Hm Hin].
      exists (dom (SeriesCommand.Metrics c)). split.
      + apply list_elem_of_fmap. by exists c.
      + by apply elem_of_dom.
    - intros (X & HX & Hk). apply list_elem_of_fmap in HX as (c & -> & Hin).
      apply elem_of_dom in Hk.
      assert (c ∈ filter (has_metric k) cmds) as Hf by (by apply list_elem_of_filter).
      destruct (filter (has_metric k) cmds) as [|c' l]; [by apply not_elem_of_nil in Hf|].
      simpl. eauto. }
  destruct (decide (0 < Chunk.Len cmds)) as [Hlen|Hlen].
  - rewrite Hrun. rewrite foldl_snoc_snd. simpl.
    exists (range_kv sm).*2. split; [done|]. split.
    + by rewrite length_fmap, range_kv_length, <- Hdom, size_dom.
    + intros key. apply option_list_Permutation.
      rewrite range_kv_perm, <- Hsm'.
      apply filter_values_by_key. intros k v. rewrite Hsm'. apply grouped_series_Metric.
  - assert (cmds = []) as -> by (destruct cmds; [done|simpl in Hlen; lia]).
    exists []. split; [done|]. split; [done|]. intros key. done.
Qed.

End series_facts.

(** ** Claims about the series transformers *)

Section series_claims.
Context {order : GoRange}.

Lemma first_with_Exists key cmds :
  Exists (has_metric key) cmds → is_Some (first_with key cmds).
Proof.
  intros (c & Hin & Hc)%Exists_exists. unfold first_with.
  assert (c ∈ filter (has_metric key) cmds) as Hf by (by apply list_elem_of_filter).
  destruct (filter (has_metric key) cmds); [by apply not_elem_of_nil in Hf|by eexists].
Qed.

(** The samples of a metric name come one from each command that has the
    name, in the order of these commands. *)
Lemma samples_of_filter key cmds :
  Forall stamped cmds →
  Some <$> samples_of key cmds = sample_of key <$> filter (has_metric key) cmds.
Proof.
  induction 1 as [|c cmds Hc _ IH]; [done|].
  unfold samples_of in *. rewrite filter_cons.
  change (omap (sample_of key) (c :: cmds))
    with (match sample_of key c with
          | Some y => y :: omap (sample_of key) cmds
          | None => omap (sample_of key) cmds
          end).
  pose proof (sample_of_stamped key c Hc) as Hs.
  destruct (sample_of key c) as [smp|] eqn:Hsmp.
  - rewrite decide_True by done. rewrite !fmap_cons, IH. by rewrite Hsmp.
  - by rewrite decide_False by done.
Qed.

Lemma first_with_tags_union key cmds first :
  first_with key cmds = Some first → SeriesCommand.Tags first ⊆ tags_union key cmds.
Proof.
  unfold first_with, tags_union.
  destruct (filter _ cmds) as [|c rest]; intros [= ->].
  apply map_union_subseteq_l.
Qed.

Lemma samples_of_length key cmds :
  Forall stamped cmds →
  length (samples_of key cmds) = length (filter (has_metric key) cmds).
Proof.
  induction 1 as [|c cmds Hc _ IH]; [done|].
  unfold samples_of in *. rewrite filter_cons.
  change (omap (sample_of key) (c :: cmds))
    with (match sample_of key c with
          | Some y => y :: omap (sample_of key) cmds
          | None => omap (sample_of key) cmds
          end).
  pose proof (sample_of_stamped key c Hc) as Hs.
  destruct (sample_of key c).
  - rewrite decide_True by done. simpl. by rewrite IH.
  - by rewrite decide_False by done.
Qed.

(** C1 (as amended).  On a batch whose commands all carry a timestamp, the
    non-chunked transformer returns one wire Series per (command, metric)
    pair, and the chunked transformer returns one per distinct metric name;
    the two counts agree when no metric name occurs in two commands. *)
Theorem series_object_count (batch : list SeriesCommand.t) :
  Forall stamped batch →
  (∃ out, seriesCommandsToSeries batch = Ok out ∧ length out = metric_pairs batch)
  ∧ (∃ out drained, seriesCommandsChunkToSeries batch = Ok (out, drained)
                    ∧ length out = size (distinct_metrics batch))
  ∧ (metrics_disjoint batch → metric_pairs batch = size (distinct_metrics batch)).
Proof.
  intros Hst. split; [|split].
  - destruct (seriesCommandsToSeries_loop_stamped batch [] Hst) as (out & Hout & Hlen).
    by exists out.
  - destruct (seriesCommandsChunkToSeries_stamped batch Hst) as (out & Hout & Hlen & _).
    by exists out, [].
  - apply metric_pairs_disjoint.
Qed.

(** C2 (as amended).  On a chunk whose commands all carry a timestamp, the
    wire Series of a metric name carries the tags (and the entity) of the
    first command of the chunk that has that metric name: a part of the
    union of the tags of the commands that have it, not the union. *)
Theorem chunk_series_tags (chunk : Chunk.t) (key : string) :
  Forall stamped chunk →
  Exists (has_metric key) chunk →
  ∃ series drained first s,
    seriesCommandsChunkToSeries chunk = Ok (series, drained)
    ∧ first_with key chunk = Some first
    ∧ filter (λ s, Series.Metric s = key) series = [s]
    ∧ Series.Tags s = SeriesCommand.Tags first
    ∧ Series.Entity s = SeriesCommand.Entity first
    ∧ Series.Tags s ⊆ tags_union key chunk.
Proof.
  intros Hst Hex.
  destruct (seriesCommandsChunkToSeries_stamped chunk Hst) as (series & Hrun & _ & Hkey).
  destruct (first_with_Exists key chunk Hex) as [first Hfirst].
  specialize (Hkey key). unfold grouped_series in Hkey. rewrite Hfirst in Hkey.
  eexists series, [], first, _.
  split; [done|]. split; [done|]. split; [exact Hkey|]. split; [done|]. split; [done|].
  simpl. by apply first_with_tags_union.
Qed.

(** C3 (as amended).  The non-chunked transformer panics on every batch
    that has a command without a timestamp; the chunked transformer panics
    on every chunk that has a command without a timestamp and with a
    non-empty metric mapping.  Either way nothing is returned. *)
Theorem nil_timestamp_aborts (cmds : list SeriesCommand.t) :
  (Exists (λ c, SeriesCommand.Timestamp c = None) cmds →
   seriesCommandsToSeries cmds = Panic "Nil timestamp!")
  ∧ (Exists (λ c, SeriesCommand.Timestamp c = None ∧ populated c) cmds →
     seriesCommandsChunkToSeries cmds = Panic "Nil timestamp!").
Proof.
  split.
  - apply seriesCommandsToSeries_loop_nil_timestamp.
  - intros Hex. unfold seriesCommandsChunkToSeries.
    rewrite decide_True by (destruct Hex; simpl; lia).
    by rewrite (drain_nil_timestamp cmds ∅ Hex).
Qed.

(** C4.  On a chunk whose commands all carry a timestamp, the samples of a
    metric name are in exactly one wire Series; its samples are those of the
    commands that have the metric name, one from each, in the order of the
    chunk, and so as many as these commands.  No other wire Series is
    returned. *)
Theorem chunk_groups_samples (chunk : Chunk.t) :
  Forall stamped chunk →
  ∃ series drained,
    seriesCommandsChunkToSeries chunk = Ok (series, drained)
    ∧ (∀ key, Exists (has_metric key) chunk →
         ∃ s, filter (λ s, Series.Metric s = key) series = [s]
              ∧ Series.Data s = samples_of key chunk
              ∧ Some <$> Series.Data s = sample_of key <$> filter (has_metric key) chunk
              ∧ length (Series.Data s) = length (filter (has_metric key) chunk))
    ∧ (∀ s, s ∈ series → Exists (has_metric (Series.Metric s)) chunk).
Proof.
  intros Hst.
  destruct (seriesCommandsChunkToSeries_stamped chunk Hst) as (series & Hrun & _ & Hkey).
  exists series, []. split; [done|]. split.
  - intros key Hex. destruct (first_with_Exists key chunk Hex) as [first Hfirst].
    specialize (Hkey key). unfold grouped_series in Hkey. rewrite Hfirst in Hkey.
    eexists. split; [exact Hkey|]. simpl. split; [done|].
    split; [by apply samples_of_filter|by apply samples_of_length].
  - intros s Hs.
    assert (s ∈ filter (λ s', Series.Metric s' = Series.Metric s) series) as Hf
      by (by apply list_elem_of_filter).
    rewrite Hkey in Hf. unfold grouped_series, first_with in Hf.
    destruct (head _) as [c|] eqn:Hc; [|by apply not_elem_of_nil in Hf].
    apply head_Some_elem_of, list_elem_of_filter in Hc as [Hm Hin].
    apply Exists_exists. eauto.
Qed.

(** C6.  On a chunk whose commands all carry a timestamp, the chunked
    transformer returns and leaves the chunk empty, and every sample of
    every command is in the wire Series of its metric name. *)
Theorem chunk_fully_drained (chunk : Chunk.t) :
  Forall stamped chunk →
  ∃ series drained,
    seriesCommandsChunkToSeries chunk = Ok (series, drained)
    ∧ Chunk.Len drained = 0
    ∧ Chunk.Front drained = None
    ∧ (∀ c key smp, c ∈ chunk → sample_of key c = Some smp →
         ∃ s, s ∈ series ∧ Series.Metric s = key ∧ smp ∈ Series.Data s).
Proof.
  intros Hst.
  destruct (seriesCommandsChunkToSeries_stamped chunk Hst) as (series & Hrun & _ & Hkey).
  exists series, []. repeat split; [done|].
  intros c key smp Hin Hsmp.
  assert (Exists (has_metric key) chunk) as Hex.
  { apply Exists_exists. exists c. split; [done|].
    unfold sample_of in Hsmp. unfold has_metric.
    destruct (SeriesCommand.Metrics c !! key); [eauto|done]. }
  destruct (first_with_Exists key chunk Hex) as [first Hfirst].
  specialize (Hkey key). unfold grouped_series in Hkey. rewrite Hfirst in Hkey.
  eexists. split; [|split].
  - eapply list_elem_of_filter. rewrite Hkey. apply list_elem_of_here.
  - done.
  - simpl. unfold samples_of. apply list_elem_of_omap. eauto.
Qed.

End series_claims.

(** ** The series claims on sample commands *)

Lemma range_kv_singleton {order : GoRange} {V} (k : string) (v : V) :
  range_kv ({[ k := v ]} : gmap string V) = [(k, v)].
Proof.
  apply Permutation_singleton_r. by rewrite range_kv_perm, map_to_list_singleton.
Qed.

Lemma sample_chunk_stamped : Forall stamped [cpu_first; cpu_second].
Proof. repeat constructor; by eexists. Qed.

Lemma sample_chunk_has_cpu : Exists (has_metric "cpu") [cpu_first; cpu_second].
Proof. apply Exists_cons_hd. by eexists. Qed.

Lemma series_object_count_witness :
  Forall stamped [cpu_first; cpu_second]
  ∧ (∃ out, @seriesCommandsToSeries listed_range [cpu_first; cpu_second] = Ok out
            ∧ length out = metric_pairs [cpu_first; cpu_second])
  ∧ (∃ out drained,
       @seriesCommandsChunkToSeries listed_range [cpu_first; cpu_second] = Ok (out, drained)
       ∧ length out = size (distinct_metrics [cpu_first; cpu_second]))
  ∧ (metrics_disjoint [cpu_first; cpu_second] →
     metric_pairs [cpu_first; cpu_second] = size (distinct_metrics [cpu_first; cpu_second])).
Proof.
  split; [exact sample_chunk_stamped|].
  exact (@series_object_count listed_range [cpu_first; cpu_second] sample_chunk_stamped).
Defined.

(** C1, the claim as it is written, fails for the non-chunked transformer:
    two stamped, populated commands that both report [cpu] have one distinct
    metric name, and [seriesCommandsToSeries] returns two wire Series, in
    whatever order maps are iterated. *)
Lemma seriesCommandsToSeries_counts_pairs :
  Forall populated [cpu_first; cpu_second]
  ∧ Forall stamped [cpu_first; cpu_second]
  ∧ size (distinct_metrics [cpu_first; cpu_second]) = 1
  ∧ ∀ R : GoRange,
      ∃ out, @seriesCommandsToSeries R [cpu_first; cpu_second] = Ok out ∧ length out = 2.
Proof.
  split; [|split; [|split]].
  - repeat constructor; intros Hempty; by vm_compute in Hempty.
  - exact sample_chunk_stamped.
  - by vm_compute.
  - intros R.
    destruct (@seriesCommandsToSeries_loop_stamped R _ [] sample_chunk_stamped)
      as (out & Hout & Hlen).
    exists out. split; [done|]. rewrite Hlen. by vm_compute.
Qed.

Lemma chunk_series_tags_witness :
  Forall stamped [cpu_first; cpu_second]
  ∧ Exists (has_metric "cpu") [cpu_first; cpu_second]
  ∧ ∃ series drained first s,
      @seriesCommandsChunkToSeries listed_range [cpu_first; cpu_second] = Ok (series, drained)
      ∧ first_with "cpu" [cpu_first; cpu_second] = Some first
      ∧ filter (λ s, Series.Metric s = "cpu") series = [s]
      ∧ Series.Tags s = SeriesCommand.Tags first
      ∧ Series.Entity s = SeriesCommand.Entity first
      ∧ Series.Tags s ⊆ tags_union "cpu" [cpu_first; cpu_second].
Proof.
  split; [exact sample_chunk_stamped|]. split; [exact sample_chunk_has_cpu|].
  exact (@chunk_series_tags listed_range [cpu_first; cpu_second] "cpu"
           sample_chunk_stamped sample_chunk_has_cpu).
Defined.

(** C2, the claim as it is written, fails: both commands have the metric
    [cpu], the second is tagged [rack=r7], and the one wire Series of [cpu]
    has no tag [rack]: its tags are the first command's, not the union. *)
Lemma chunk_series_tags_not_union :
  Forall stamped [cpu_first; cpu_second]
  ∧ Forall (has_metric "cpu") [cpu_first; cpu_second]
  ∧ tags_union "cpu" [cpu_first; cpu_second] !! "rack" = Some "r7"
  ∧ ∀ R : GoRange,
      ∃ series drained,
        @seriesCommandsChunkToSeries R [cpu_first; cpu_second] = Ok (series, drained)
        ∧ filter (λ s, Series.Metric s = "cpu") series = [cpu_grouped]
        ∧ Series.Tags cpu_grouped !! "rack" = None
        ∧ Series.Tags cpu_grouped ≠ tags_union "cpu" [cpu_first; cpu_second].
Proof.
  split; [exact sample_chunk_stamped|]. split; [repeat constructor; by eexists|].
  split; [by vm_compute|]. intros R.
  destruct (@seriesCommandsChunkToSeries_stamped R _ sample_chunk_stamped)
    as (series & Hrun & _ & Hkey).
  exists series, []. split; [done|]. split; [|split].
  - rewrite Hkey. by vm_compute.
  - by vm_compute.
  - intros Heq. by vm_compute in Heq.
Qed.

Lemma nil_timestamp_aborts_witness :
  Exists (λ c, SeriesCommand.Timestamp c = None) [cpu_first; cpu_unstamped]
  ∧ Exists (λ c, SeriesCommand.Timestamp c = None ∧ populated c) [cpu_first; cpu_unstamped]
  ∧ @seriesCommandsToSeries listed_range [cpu_first; cpu_unstamped] = Panic "Nil timestamp!"
  ∧ @seriesCommandsChunkToSeries listed_range [cpu_first; cpu_unstamped]
    = Panic "Nil timestamp!".
Proof.
  assert (Exists (λ c, SeriesCommand.Timestamp c = None) [cpu_first; cpu_unstamped]) as H1.
  { apply Exists_cons_tl, Exists_cons_hd. reflexivity. }
  assert (Exists (λ c, SeriesCommand.Timestamp c = None ∧ populated c)
                 [cpu_first; cpu_unstamped]) as H2.
  { apply Exists_cons_tl, Exists_cons_hd. split; [reflexivity|].
    intros Hempty. by vm_compute in Hempty. }
  split; [exact H1|]. split; [exact H2|]. split.
  - exact (proj1 (@nil_timestamp_aborts listed_range [cpu_first; cpu_unstamped]) H1).
  - exact (proj2 (@nil_timestamp_aborts listed_range [cpu_first; cpu_unstamped]) H2).
Defined.

(** C3, the claim as it is written, fails for the chunked transformer: the
    chunk has a command without a timestamp (and without a metric), and the
    transformer returns the wire Series of the other command and an empty
    chunk instead of panicking, in whatever order maps are iterated. *)
Lemma chunk_with_bare_command_returns :
  Exists (λ c, SeriesCommand.Timestamp c = None) [cpu_first; bare_command]
  ∧ ∀ R : GoRange,
      @seriesCommandsChunkToSeries R [cpu_first; bare_command]
      = Ok ([ {| Series.Entity := "host-1"; Series.Metric := "cpu";
                 Series.Tags := {[ "zone" := "a" ]};
                 Series.Data := [ {| Sample.T := 1000%Z; Sample.V := Int64 10 |} ] |} ],
            []).
Proof.
  split; [apply Exists_cons_tl, Exists_cons_hd; reflexivity|].
  intros R. unfold seriesCommandsChunkToSeries.
  rewrite decide_True by (simpl; lia).
  unfold drain, cpu_first, bare_command.
  cbn [SeriesCommand.Metrics SeriesCommand.Timestamp SeriesCommand.Tags SeriesCommand.Entity].
  rewrite range_kv_singleton, range_kv_empty.
  cbn [range_loop]. unfold chunk_sample.
  cbn [SeriesCommand.Metrics SeriesCommand.Timestamp SeriesCommand.Tags SeriesCommand.Entity fst snd].
  rewrite lookup_empty.
  match goal with |- context [range_kv ?m] =>
    assert (m = {[ "cpu" := {| Series.Entity := "host-1"; Series.Metric := "cpu";
                               Series.Tags := {[ "zone" := "a" ]};
                               Series.Data := [ {| Sample.T := 1000%Z; Sample.V := Int64 10 |} ] |} ]})
      as -> by (by vm_compute)
  end.
  by rewrite range_kv_singleton.
Qed.

Lemma chunk_groups_samples_witness :
  Forall stamped [cpu_first; cpu_second]
  ∧ ∃ series drained,
      @seriesCommandsChunkToSeries listed_range [cpu_first; cpu_second] = Ok (series, drained)
      ∧ (∀ key, Exists (has_metric key) [cpu_first; cpu_second] →
           ∃ s, filter (λ s, Series.Metric s = key) series = [s]
                ∧ Series.Data s = samples_of key [cpu_first; cpu_second]
                ∧ Some <$> Series.Data s
                  = sample_of key <$> filter (has_metric key) [cpu_first; cpu_second]
                ∧ length (Series.Data s)
                  = length (filter (has_metric key) [cpu_first; cpu_second]))
      ∧ (∀ s, s ∈ series → Exists (has_metric (Series.Metric s)) [cpu_first; cpu_second]).
Proof.
  split; [exact sample_chunk_stamped|].
  exact (@chunk_groups_samples listed_range [cpu_first; cpu_second] sample_chunk_stamped).
Defined.

Lemma chunk_fully_drained_witness :
  Forall stamped [cpu_first; cpu_second]
  ∧ ∃ series drained,
      @seriesCommandsChunkToSeries listed_range [cpu_first; cpu_second] = Ok (series, drained)
      ∧ Chunk.Len drained = 0
      ∧ Chunk.Front drained = None
      ∧ (∀ c key smp, c ∈ [cpu_first; cpu_second] → sample_of key c = Some smp →
           ∃ s, s ∈ series ∧ Series.Metric s = key ∧ smp ∈ Series.Data s).
Proof.
  split; [exact sample_chunk_stamped|].
  exact (@chunk_fully_drained listed_range [cpu_first; cpu_second] sample_chunk_stamped).
Defined.

(** The grouping on the sample chunk, evaluated. *)
Example sample_chunk_grouped :
  @seriesCommandsChunkToSeries listed_range [cpu_first; cpu_second]
  = Ok ([cpu_grouped], []).
Proof. by vm_compute. Qed.

Example sample_batch_not_grouped :
  @seriesCommandsToSeries listed_range [cpu_first; cpu_second]
  = Ok [ {| Series.Entity := "host-1"; Series.Metric := "cpu";
            Series.Tags := {[ "zone" := "a" ]};
            Series.Data := [ {| Sample.T := 1000%Z; Sample.V := Int64 10 |} ] |};
         {| Series.Entity := "host-1"; Series.Metric := "cpu";
            Series.Tags := {[ "rack" := "r7" ]};
            Series.Data := [ {| Sample.T := 2000%Z; Sample.V := Int64 20 |} ] |} ].
Proof. by vm_compute. Qed.

(** ** The message transformer *)

Section message_facts.
Context {order : GoRange}.

(** One round of the loop over the tags, field by field. *)
Lemma message_tag_fields (m : Message.t) (kv : string * string) :
  message_tag m kv =
  {| Message.Entity := Message.Entity m;
     Message.Text := Message.Text m;
     Message.Severity := if decide (kv.1 = "severity") then Some kv.2 else Message.Severity m;
     Message.Source := if decide (kv.1 = "source") then Some kv.2 else Message.Source m;
     Message.Type_ := if decide (kv.1 = "type") then Some kv.2 else Message.Type_ m;
     Message.Tags := <[kv.1 := kv.2]> (Message.Tags m);
     Message.Timestamp := Message.Timestamp m |}.
Proof. unfold message_tag. by repeat case_decide. Qed.

Lemma reserved_field_step (l : gmap string string) (k0 v0 key : string) (field : option string) :
  l !! k0 = None →
  l !! key ∪ (if decide (k0 = key) then Some v0 else field)
  = <[k0 := v0]> l !! key ∪ field.
Proof.
  intros Hk0. case_decide as Hk.
  - subst. rewrite lookup_insert_eq, Hk0. by destruct field.
  - by rewrite lookup_insert_ne.
Qed.

(** The loop over the tags, on a list of entries with distinct keys: every
    entry becomes a generic tag, and the entries of the three reserved keys
    also set their fields. *)
Lemma foldl_message_tag (l : list (string * string)) (m0 : Message.t) :
  NoDup l.*1 →
  foldl message_tag m0 l =
  {| Message.Entity := Message.Entity m0;
     Message.Text := Message.Text m0;
     Message.Severity := (list_to_map l : gmap string string) !! "severity" ∪ Message.Severity m0;
     Message.Source := (list_to_map l : gmap string string) !! "source" ∪ Message.Source m0;
     Message.Type_ := (list_to_map l : gmap string string) !! "type" ∪ Message.Type_ m0;
     Message.Tags := list_to_map l ∪ Message.Tags m0;
     Message.Timestamp := Message.Timestamp m0 |}.
Proof.
  revert m0. induction l as [|[k0 v0] l IH]; intros m0 Hnd.
  - simpl. rewrite !lookup_empty, (left_id_L ∅ (∪)).
    by destruct m0 as [? ? [?|] [?|] [?|] ? ?].
  - apply NoDup_cons in Hnd as [Hk0 Hnd].
    apply not_elem_of_list_to_map in Hk0. simpl in Hk0.
    change (foldl message_tag m0 ((k0, v0) :: l))
      with (foldl message_tag (message_tag m0 (k0, v0)) l).
    rewrite (IH _ Hnd), message_tag_fields. clear IH.
    change (list_to_map ((k0, v0) :: l) : gmap string string)
      with (<[k0 := v0]> (list_to_map l : gmap string string)).
    cbn [fst snd Message.Entity Message.Text Message.Severity Message.Source
         Message.Type_ Message.Tags Message.Timestamp].
    rewrite !reserved_field_step by done.
    by rewrite <- insert_union_l, insert_union_r.
Qed.

(** The wire Message of a command, whatever the order its tags are visited
    in. *)
Lemma messageCommandToMessage_spec (c : MessageCommand.t) :
  messageCommandToMessage c =
  {| Message.Entity := MessageCommand.Entity c;
     Message.Text := MessageCommand.Message c;
     Message.Severity := MessageCommand.Tags c !! "severity";
     Message.Source := MessageCommand.Tags c !! "source";
     Message.Type_ := MessageCommand.Tags c !! "type";
     Message.Tags := MessageCommand.Tags c;
     Message.Timestamp := MessageCommand.Timestamp c |}.
Proof.
  unfold messageCommandToMessage.
  rewrite foldl_message_tag by apply range_kv_NoDup.
  rewrite range_kv_to_map. simpl.
  rewrite (right_id_L ∅ (∪)).
  rewrite !(right_id_L None (∪)).
  by destruct (MessageCommand.Timestamp c).
Qed.

Lemma messageCommandsToProperties_fmap (cmds : list MessageCommand.t) :
  messageCommandsToProperties cmds = messageCommandToMessage <$> cmds.
Proof.
  unfold messageCommandsToProperties.
  cut (∀ acc, foldl (λ messages c, messages ++ [messageCommandToMessage c]) acc cmds
              = acc ++ (messageCommandToMessage <$> cmds)).
  { intros Hcut. apply Hcut. }
  induction cmds as [|c cmds IH]; intros acc; simpl.
  - by rewrite app_nil_r.
  - rewrite IH. by rewrite <- app_assoc.
Qed.

(** C8.  A message command whose tags have [severity] (with any value, so
    with WARNING) becomes, at its place in the batch, a wire Message whose
    severity field is that value and whose generic tags still have the
    entry; likewise for [source] and [type]. *)
Theorem message_reserved_tags_routed (messageCommands : list MessageCommand.t)
    (i : nat) (messageCommand : MessageCommand.t) :
  messageCommands !! i = Some messageCommand →
  ∃ message,
    messageCommandsToProperties messageCommands !! i = Some message
    ∧ (∀ val, MessageCommand.Tags messageCommand !! "severity" = Some val →
         Message.Severity message = Some val
         ∧ Message.Tags message !! "severity" = Some val)
    ∧ (∀ val, MessageCommand.Tags messageCommand !! "source" = Some val →
         Message.Source message = Some val
         ∧ Message.Tags message !! "source" = Some val)
    ∧ (∀ val, MessageCommand.Tags messageCommand !! "type" = Some val →
         Message.Type_ message = Some val
         ∧ Message.Tags message !! "type" = Some val).
Proof.
  intros Hi. exists (messageCommandToMessage messageCommand).
  split.
  - by rewrite messageCommandsToProperties_fmap, list_lookup_fmap, Hi.
  - rewrite messageCommandToMessage_spec. simpl. by repeat split.
Qed.

End message_facts.

Lemma message_reserved_tags_routed_witness :
  [disk_warning] !! 0 = Some disk_warning
  ∧ ∃ message,
      @messageCommandsToProperties listed_range [disk_warning] !! 0 = Some message
      ∧ (∀ val, MessageCommand.Tags disk_warning !! "severity" = Some val →
           Message.Severity message = Some val
           ∧ Message.Tags message !! "severity" = Some val)
      ∧ (∀ val, MessageCommand.Tags disk_warning !! "source" = Some val →
           Message.Source message = Some val
           ∧ Message.Tags message !! "source" = Some val)
      ∧ (∀ val, MessageCommand.Tags disk_warning !! "type" = Some val →
           Message.Type_ message = Some val
           ∧ Message.Tags message !! "type" = Some val).
Proof.
  split; [reflexivity|].
  exact (@message_reserved_tags_routed listed_range [disk_warning] 0 disk_warning eq_refl).
Defined.

(** The warning of the spec, evaluated. *)
Example disk_warning_message :
  @messageCommandsToProperties listed_range [disk_warning]
  = [ {| Message.Entity := "host-1"; Message.Text := "disk almost full";
         Message.Severity := Some "WARNING"; Message.Source := None;
         Message.Type_ := None; Message.Tags := {[ "severity" := "WARNING" ]};
         Message.Timestamp := None |} ].
Proof. by vm_compute. Qed.

(** ** The retry executor *)

Section retry_facts.
Context {W : Type} {store : StoreClient W} {B : Type} {policy : Backoff B}.

(** One round of the loop on a Store Client call. *)
Lemma tryWhileNotComplete_round (fuel : nat) (op : ClientOp) (taskName : string)
    (expBackoff : B) (hc : HttpCommunicator.t W) :
  tryWhileNotComplete (S fuel) (call op) taskName expBackoff hc =
  match (respond op (HttpCommunicator.client hc)).1 with
  | Some e =>
      tryWhileNotComplete fuel (call op) taskName (Duration expBackoff).2
        {| HttpCommunicator.client := (respond op (HttpCommunicator.client hc)).2;
           HttpCommunicator.counters := HttpCommunicator.counters hc;
           HttpCommunicator.offered := HttpCommunicator.offered hc;
           HttpCommunicator.trace :=
             HttpCommunicator.trace hc ++
               [ EvCall op (Some e);
                 EvError [LStr "Could not perform "; LStr taskName; LStr ": "; LErr e;
                          LStr "waiting for "; LDur (Duration expBackoff).1];
                 EvSleep (Duration expBackoff).1 ] |}
  | None =>
      (Done (Reset expBackoff),
       {| HttpCommunicator.client := (respond op (HttpCommunicator.client hc)).2;
          HttpCommunicator.counters := HttpCommunicator.counters hc;
          HttpCommunicator.offered := HttpCommunicator.offered hc;
          HttpCommunicator.trace := HttpCommunicator.trace hc ++ [EvCall op None] |})
  end.
Proof.
  simpl. unfold bind, call, glog_Error, time_Sleep, emit, ret. simpl.
  destruct (respond op (HttpCommunicator.client hc)).1 as [e|]; [|done].
  simpl. by rewrite <- !app_assoc.
Qed.

Lemma retry_until_success (N : nat) (op : ClientOp) (taskName : string) :
  ∀ (fuel : nat) (expBackoff : B) (hc : HttpCommunicator.t W),
    fails_then_succeeds N op (HttpCommunicator.client hc) →
    N < fuel →
    ∃ evs,
      tryWhileNotComplete fuel (call op) taskName expBackoff hc
      = (Done (Reset (advance N expBackoff)),
         {| HttpCommunicator.client := world_after (S N) op (HttpCommunicator.client hc);
            HttpCommunicator.counters := HttpCommunicator.counters hc;
            HttpCommunicator.offered := HttpCommunicator.offered hc;
            HttpCommunicator.trace := HttpCommunicator.trace hc ++ evs |})
      ∧ length (calls evs) = N + 1
      ∧ sleeps evs = durations N expBackoff
      ∧ length (errors_logged evs) = N.
Proof.
  induction N as [|N IH]; intros fuel expBackoff hc Hop Hfuel;
    (destruct fuel as [|fuel]; [lia|]); rewrite tryWhileNotComplete_round.
  - simpl in Hop. rewrite Hop. by exists [EvCall op None].
  - destruct Hop as [[e He] Hrest]. rewrite He.
    match goal with |- context [tryWhileNotComplete fuel _ _ ?b ?hc'] =>
      destruct (IH fuel b hc' Hrest ltac:(lia)) as (evs & -> & Hcalls & Hsleeps & Hlogs)
    end.
    eexists (_ :: _ :: _ :: evs). split.
    + simpl. by rewrite <- app_assoc.
    + simpl. rewrite Hcalls, Hsleeps, Hlogs. done.
Qed.

Lemma retry_while_failing (op : ClientOp) (taskName : string) :
  ∀ (fuel : nat) (expBackoff : B) (hc : HttpCommunicator.t W),
    always_fails op (HttpCommunicator.client hc) →
    ∃ evs,
      tryWhileNotComplete fuel (call op) taskName expBackoff hc
      = (Retrying,
         {| HttpCommunicator.client := world_after fuel op (HttpCommunicator.client hc);
            HttpCommunicator.counters := HttpCommunicator.counters hc;
            HttpCommunicator.offered := HttpCommunicator.offered hc;
            HttpCommunicator.trace := HttpCommunicator.trace hc ++ evs |})
      ∧ length (calls evs) = fuel
      ∧ sleeps evs = durations fuel expBackoff.
Proof.
  induction fuel as [|fuel IH]; intros expBackoff hc Hop.
  - exists []. simpl. rewrite app_nil_r. by destruct hc.
  - rewrite tryWhileNotComplete_round.
    destruct (Hop 0) as [e He]. simpl in He. rewrite He.
    match goal with |- context [tryWhileNotComplete fuel _ _ ?b ?hc'] =>
      destruct (IH b hc') as (evs & -> & Hcalls & Hsleeps)
    end.
    { intros n. apply (Hop (S n)). }
    eexists (_ :: _ :: _ :: evs). split.
    + simpl. by rewrite <- app_assoc.
    + simpl. by rewrite Hcalls, Hsleeps.
Qed.

(** C5.  When the operation fails on its first [N] invocations and succeeds
    on the next, the retry executor, given room for more than [N] rounds,
    returns: it has invoked the operation [N + 1] times, slept [N] times for
    the successive waits of the policy object, logged each failure, and it
    leaves the policy object reset; what it returns carries no error.  When
    the operation fails on every invocation, the executor has not returned
    after any number of rounds, each of which invoked the operation once. *)
Theorem tryWhileNotComplete_retries (N : nat) (op : ClientOp) (taskName : string)
    (expBackoff : B) (hc : HttpCommunicator.t W) :
  (fails_then_succeeds N op (HttpCommunicator.client hc) →
   ∀ fuel, N < fuel →
     ∃ evs,
       tryWhileNotComplete fuel (call op) taskName expBackoff hc
       = (Done (Reset (advance N expBackoff)),
          {| HttpCommunicator.client := world_after (S N) op (HttpCommunicator.client hc);
             HttpCommunicator.counters := HttpCommunicator.counters hc;
             HttpCommunicator.offered := HttpCommunicator.offered hc;
             HttpCommunicator.trace := HttpCommunicator.trace hc ++ evs |})
       ∧ length (calls evs) = N + 1
       ∧ sleeps evs = durations N expBackoff
       ∧ length (errors_logged evs) = N)
  ∧ (always_fails op (HttpCommunicator.client hc) →
     ∀ fuel,
       ∃ evs,
         tryWhileNotComplete fuel (call op) taskName expBackoff hc
         = (Retrying,
            {| HttpCommunicator.client := world_after fuel op (HttpCommunicator.client hc);
               HttpCommunicator.counters := HttpCommunicator.counters hc;
               HttpCommunicator.offered := HttpCommunicator.offered hc;
               HttpCommunicator.trace := HttpCommunicator.trace hc ++ evs |})
         ∧ length (calls evs) = fuel
         ∧ sleeps evs = durations fuel expBackoff).
Proof.
  split.
  - intros Hop fuel Hfuel. by apply retry_until_success.
  - intros Hop fuel. by apply retry_while_failing.
Qed.

End retry_facts.

(** The retry executor on the test doubles. *)
Lemma tryWhileNotComplete_retries_witness :
  @fails_then_succeeds _ scripted_client 2 (SeriesInsert []) flaky_store
  ∧ 2 < 5
  ∧ @always_fails _ unreachable_client (SeriesInsert []) tt
  ∧ (∃ evs,
       @tryWhileNotComplete _ _ exp_backoff 5 (@call _ scripted_client (SeriesInsert []))
         "series insert" (ExpBackoff.New (100 * Millisecond) (5 * Minute))
         (NewHttpCommunicator flaky_store)
       = (Done (ExpBackoff.reset
                  (@advance _ exp_backoff 2 (ExpBackoff.New (100 * Millisecond) (5 * Minute)))),
          {| HttpCommunicator.client := [];
             HttpCommunicator.counters := httpCounters.zero;
             HttpCommunicator.offered := [];
             HttpCommunicator.trace := [] ++ evs |})
       ∧ length (calls evs) = 2 + 1
       ∧ sleeps evs
         = @durations _ exp_backoff 2 (ExpBackoff.New (100 * Millisecond) (5 * Minute))
       ∧ length (errors_logged evs) = 2)
  ∧ (∃ evs,
       @tryWhileNotComplete _ _ exp_backoff 7 (@call _ unreachable_client (SeriesInsert []))
         "series insert" (ExpBackoff.New (100 * Millisecond) (5 * Minute))
         (NewHttpCommunicator tt)
       = (Retrying,
          {| HttpCommunicator.client := tt;
             HttpCommunicator.counters := httpCounters.zero;
             HttpCommunicator.offered := [];
             HttpCommunicator.trace := [] ++ evs |})
       ∧ length (calls evs) = 7
       ∧ sleeps evs
         = @durations _ exp_backoff 7 (ExpBackoff.New (100 * Millisecond) (5 * Minute))).
Proof.
  assert (@fails_then_succeeds _ scripted_client 2 (SeriesInsert []) flaky_store) as Hflaky.
  { simpl. eauto. }
  assert (2 < 5) as Hfuel by lia.
  assert (@always_fails _ unreachable_client (SeriesInsert []) tt) as Hdown.
  { intros n. simpl. eauto. }
  split; [exact Hflaky|]. split; [exact Hfuel|]. split; [exact Hdown|]. split.
  - exact (proj1 (@tryWhileNotComplete_retries _ scripted_client _ exp_backoff 2
                    (SeriesInsert []) "series insert"
                    (ExpBackoff.New (100 * Millisecond) (5 * Minute))
                    (NewHttpCommunicator flaky_store)) Hflaky 5 Hfuel).
  - exact (proj2 (@tryWhileNotComplete_retries _ unreachable_client _ exp_backoff 2
                    (SeriesInsert []) "series insert"
                    (ExpBackoff.New (100 * Millisecond) (5 * Minute))
                    (NewHttpCommunicator tt)) Hdown 7).
Defined.

(** Two refusals, then success: three calls, waits of 100 and 200 ms, and
    the policy object back at 100 ms. *)
Example flaky_store_run :
  @tryWhileNotComplete _ _ exp_backoff 5 (@call _ scripted_client (SeriesInsert []))
    "series insert" (ExpBackoff.New (100 * Millisecond) (5 * Minute))
    (NewHttpCommunicator flaky_store)
  = (Done (ExpBackoff.New (100 * Millisecond) (5 * Minute)),
     {| HttpCommunicator.client := [];
        HttpCommunicator.counters := httpCounters.zero;
        HttpCommunicator.offered := [];
        HttpCommunicator.trace :=
          [ EvCall (SeriesInsert []) (Some "503");
            EvError [LStr "Could not perform "; LStr "series insert"; LStr ": "; LErr "503";
                     LStr "waiting for "; LDur 100000000];
            EvSleep 100000000;
            EvCall (SeriesInsert []) (Some "503");
            EvError [LStr "Could not perform "; LStr "series insert"; LStr ": "; LErr "503";
                     LStr "waiting for "; LDur 200000000];
            EvSleep 200000000;
            EvCall (SeriesInsert []) None ] |}).
Proof. by vm_compute. Qed.

(** ** What communicator code does to the counters *)

Section frame_facts.
Context {W : Type} {store : StoreClient W} {B : Type} {policy : Backoff B} {order : GoRange}.
Context {X : Type} (f : httpCounters.t → X).

Lemma preserves_ret {A} (a : A) : preserves f (ret a : M W A).
Proof. by intros hc. Qed.

Lemma preserves_crash {A} (msg : string) : preserves f (crash msg : M W A).
Proof. by intros hc. Qed.

Lemma preserves_bind {A A'} (m : M W A) (k : A → M W A') :
  preserves f m → (∀ a, preserves f (k a)) → preserves f (bind m k).
Proof.
  intros Hm Hk hc. unfold bind. specialize (Hm hc).
  destruct (m hc) as [[a| |msg] hc']; simpl in *; [by rewrite Hk|done|done].
Qed.

Lemma preserves_emit (ev : Event) : preserves f (emit ev : M W unit).
Proof. by intros hc. Qed.

Lemma preserves_glog_Error (args : list LogArg) : preserves f (glog_Error args : M W unit).
Proof. by intros hc. Qed.

Lemma preserves_time_Sleep (d : Z) : preserves f (time_Sleep d : M W unit).
Proof. by intros hc. Qed.

Lemma preserves_call (op : ClientOp) : preserves f (call op).
Proof. by intros hc. Qed.

Lemma preserves_offer (v : Inbox) : preserves f (offer v : M W unit).
Proof. by intros hc. Qed.

Lemma preserves_for_each {A S} (body : A → S → M W S) (l : list A) (s : S) :
  (∀ x s', preserves f (body x s')) → preserves f (for_each body l s).
Proof.
  intros Hbody. revert s. induction l as [|x l IH]; intros s; simpl.
  - apply preserves_ret.
  - apply preserves_bind; [apply Hbody|apply IH].
Qed.

Lemma preserves_log_if_failed (prefix : string) (err : option Err) :
  preserves f (log_if_failed prefix err : M W unit).
Proof. destruct err; [apply preserves_glog_Error|apply preserves_ret]. Qed.

Lemma preserves_tryWhileNotComplete (fuel : nat) (task : M W (option Err))
    (taskName : string) (expBackoff : B) :
  preserves f task → preserves f (tryWhileNotComplete fuel task taskName expBackoff).
Proof.
  intros Htask. revert expBackoff. induction fuel as [|fuel IH]; intros expBackoff; simpl.
  - by intros hc.
  - apply preserves_bind; [done|]. intros [e|]; [|apply preserves_ret].
    apply preserves_bind; [apply preserves_glog_Error|]. intros _.
    apply preserves_bind; [apply preserves_time_Sleep|]. intros _. apply IH.
Qed.

Lemma preserves_prior_entity (entity : Entity.t) (u : unit) :
  preserves f (prior_entity entity u).
Proof.
  unfold prior_entity. apply preserves_bind; [apply preserves_call|].
  intros [e|]; [|apply preserves_ret].
  apply preserves_bind; [apply preserves_call|].
  intros [e'|]; [apply preserves_glog_Error|apply preserves_ret].
Qed.

Lemma preserves_PriorSendData seriesCommands entityTagCommands propertyCommands
    messageCommands :
  preserves f (PriorSendData seriesCommands entityTagCommands propertyCommands
                 messageCommands).
Proof.
  unfold PriorSendData.
  apply preserves_bind; [apply preserves_for_each, preserves_prior_entity|]. intros _.
  apply preserves_bind.
  { case_decide; [|apply preserves_ret].
    apply preserves_bind; [apply preserves_call|]. intros err. apply preserves_log_if_failed. }
  intros _. apply preserves_bind.
  { case_decide; [|apply preserves_ret].
    destruct (seriesCommandsToSeries seriesCommands); [|apply preserves_crash].
    apply preserves_bind; [apply preserves_call|]. intros err. apply preserves_log_if_failed. }
  intros _. case_decide; [|apply preserves_ret].
  apply preserves_bind; [apply preserves_call|]. intros err. apply preserves_log_if_failed.
Qed.

Lemma preserves_QueuedSendData seriesCommandsChunk entityTagCommands propertyCommands
    messageCommands :
  preserves f (QueuedSendData seriesCommandsChunk entityTagCommands propertyCommands
                 messageCommands : M W unit).
Proof.
  unfold QueuedSendData.
  repeat (apply preserves_bind; [apply preserves_offer|]; intros _).
  apply preserves_for_each. intros val u. apply preserves_offer.
Qed.

End frame_facts.

Section dropped_facts.
Context {W : Type} {store : StoreClient W} {B : Type} {policy : Backoff B} {order : GoRange}.

(** The four writes of the dispatch loop go to a [sent] field. *)
Lemma preserves_atomic_AddUint64_sent on (delta : Z) :
  on ∈ [httpCounters.on_series; httpCounters.on_entityTag;
        httpCounters.on_prop; httpCounters.on_messages] →
  preserves dropped_counters (atomic_AddUint64_sent on delta : M W unit).
Proof.
  intros Hon hc. simpl.
  repeat (apply elem_of_cons in Hon as [->|Hon]; [done|]).
  by apply not_elem_of_nil in Hon.
Qed.

Lemma preserves_dispatch_entity (fuel : nat) (entity : Entity.t) (expBackoff : B) :
  preserves dropped_counters (dispatch_entity fuel entity expBackoff).
Proof.
  unfold dispatch_entity. apply preserves_bind; [apply preserves_call|]. intros err.
  apply preserves_bind.
  { destruct err; [apply preserves_tryWhileNotComplete, preserves_call|apply preserves_ret]. }
  intros b. apply preserves_bind; [|intros _; apply preserves_ret].
  apply preserves_atomic_AddUint64_sent. set_solver.
Qed.

Lemma preserves_retry_then_count (fuel : nat) (op : ClientOp) (taskName : string)
    (expBackoff : B) on (delta : Z) :
  on ∈ [httpCounters.on_series; httpCounters.on_entityTag;
        httpCounters.on_prop; httpCounters.on_messages] →
  preserves dropped_counters
    (bind (tryWhileNotComplete fuel (call op) taskName expBackoff)
          (λ expBackoff', bind (atomic_AddUint64_sent on delta) (λ _, ret expBackoff'))).
Proof.
  intros Hon.
  apply preserves_bind; [apply preserves_tryWhileNotComplete, preserves_call|]. intros b.
  apply preserves_bind; [by apply preserves_atomic_AddUint64_sent|].
  intros _. apply preserves_ret.
Qed.

Lemma preserves_dispatch (fuel : nat) (received : Inbox) :
  preserves dropped_counters (dispatch fuel received).
Proof.
  unfold dispatch. apply preserves_bind; [|intros b; apply preserves_ret].
  destruct received as [entityTag|propertyCommands|messageCommands|seriesChunk].
  - apply preserves_for_each. intros entity b. apply preserves_dispatch_entity.
  - case_decide; [|apply preserves_ret]. apply preserves_retry_then_count. set_solver.
  - case_decide; [|apply preserves_ret]. apply preserves_retry_then_count. set_solver.
  - destruct (seriesCommandsChunkToSeries seriesChunk) as [[series drained]|msg];
      [|apply preserves_crash].
    case_decide; [|apply preserves_ret]. apply preserves_retry_then_count. set_solver.
Qed.

Lemma step_dropped_counters (hc hc' : HttpCommunicator.t W) :
  step hc hc' →
  dropped_counters (HttpCommunicator.counters hc')
  = dropped_counters (HttpCommunicator.counters hc).
Proof.
  intros [chunks entityTags properties messages hc0
         |seriesCommands entityTags properties messages hc0
         |fuel i received hc0 Hi].
  - apply preserves_QueuedSendData.
  - apply preserves_PriorSendData.
  - by rewrite preserves_dispatch.
Qed.

Lemma reachable_dropped_counters (client : W) (hc : HttpCommunicator.t W) :
  reachable client hc → dropped_counters (HttpCommunicator.counters hc) = (0, 0, 0, 0)%Z.
Proof.
  unfold reachable. revert hc. apply rtc_ind_r; [done|].
  intros hc1 hc2 _ Hstep IH. by rewrite (step_dropped_counters _ _ Hstep).
Qed.

Lemma SelfMetricValues_dropped (hc : HttpCommunicator.t W) (mv : metricValue) :
  dropped_counters (HttpCommunicator.counters hc) = (0, 0, 0, 0)%Z →
  mv ∈ SelfMetricValues hc → is_dropped_metric mv → value mv = Int64 0.
Proof.
  unfold dropped_counters. intros [= Hs He Hp Hm] Hin Hname.
  unfold SelfMetricValues in Hin. unfold is_dropped_metric in Hname.
  repeat (apply elem_of_cons in Hin as [->|Hin];
          [simpl in *; rewrite ?Hs, ?He, ?Hp, ?Hm; try done; exfalso;
           repeat (apply elem_of_cons in Hname as [Hname|Hname]; [discriminate Hname|]);
           by apply not_elem_of_nil in Hname|]).
  by apply not_elem_of_nil in Hin.
Qed.

Lemma SelfMetricValues_reports_dropped (hc : HttpCommunicator.t W) :
  dropped_counters (HttpCommunicator.counters hc) = (0, 0, 0, 0)%Z →
  Forall (λ n, {| name := n; tags := {[ "transport" := UrlScheme ]}; value := Int64 0 |}
               ∈ SelfMetricValues hc) dropped_metric_names.
Proof.
  unfold dropped_counters. intros [= Hs He Hp Hm].
  unfold SelfMetricValues. cbv zeta. rewrite Hs, He, Hp, Hm.
  change (Int64_of_uint64 0) with (Int64 0).
  repeat constructor;
    repeat (first [apply list_elem_of_here | apply list_elem_of_further]).
Qed.

(** C9.  No dispatch-loop iteration, [QueuedSendData] or [PriorSendData]
    changes a dropped counter, however it ends; so in every state the
    communicator can reach the four dropped counters are zero, and the
    snapshot of [SelfMetricValues] has its eight values, reports each of the
    four [*.dropped] names with the value zero, and has no other value under
    such a name. *)
Theorem dropped_counters_stay_zero :
  (∀ fuel received, preserves dropped_counters (dispatch fuel received))
  ∧ (∀ chunks entityTags properties messages,
       preserves dropped_counters
         (QueuedSendData chunks entityTags properties messages : M W unit))
  ∧ (∀ seriesCommands entityTags properties messages,
       preserves dropped_counters
         (PriorSendData seriesCommands entityTags properties messages))
  ∧ (∀ client hc,
       reachable client hc →
       dropped_counters (HttpCommunicator.counters hc) = (0, 0, 0, 0)%Z
       ∧ length (SelfMetricValues hc) = 8
       ∧ Forall (λ n, {| name := n; tags := {[ "transport" := UrlScheme ]};
                         value := Int64 0 |} ∈ SelfMetricValues hc)
                dropped_metric_names
       ∧ ∀ mv, mv ∈ SelfMetricValues hc → is_dropped_metric mv → value mv = Int64 0).
Proof.
  split; [apply preserves_dispatch|].
  split; [intros; apply preserves_QueuedSendData|].
  split; [intros; apply preserves_PriorSendData|].
  intros client hc Hreach.
  pose proof (reachable_dropped_counters client hc Hreach) as Hzero.
  split; [done|]. split; [done|].
  split; [by apply SelfMetricValues_reports_dropped|].
  intros mv. by apply SelfMetricValues_dropped.
Qed.

(** C10.  Whatever it is given and however it ends, [PriorSendData] leaves
    the eight counters as they were, and [SelfMetricValues] reports the
    same values after the call as before it. *)
Theorem PriorSendData_keeps_counters seriesCommands entityTagCommands propertyCommands
    messageCommands (hc : HttpCommunicator.t W) :
  HttpCommunicator.counters
    (PriorSendData seriesCommands entityTagCommands propertyCommands messageCommands hc).2
  = HttpCommunicator.counters hc
  ∧ SelfMetricValues
      (PriorSendData seriesCommands entityTagCommands propertyCommands messageCommands hc).2
    = SelfMetricValues hc.
Proof.
  pose proof (preserves_PriorSendData id seriesCommands entityTagCommands propertyCommands
                messageCommands hc) as Hc.
  simpl in Hc. split; [done|]. unfold SelfMetricValues. by rewrite Hc.
Qed.

End dropped_facts.

(** ** The entity path of [PriorSendData] *)

Section prior_facts.
Context {W : Type} {store : StoreClient W} {order : GoRange}.

Lemma foldl_SetTag (l : list (string * string)) (e0 : Entity.t) :
  NoDup l.*1 →
  foldl (λ entity kv, Entity.SetTag kv.1 kv.2 entity) e0 l
  = {| Entity.Name := Entity.Name e0; Entity.Tags := list_to_map l ∪ Entity.Tags e0 |}.
Proof.
  revert e0. induction l as [|[k0 v0] l IH]; intros e0 Hnd.
  - simpl. rewrite (left_id_L ∅ (∪)). by destruct e0.
  - apply NoDup_cons in Hnd as [Hk0 Hnd].
    apply not_elem_of_list_to_map in Hk0. simpl in Hk0.
    simpl. rewrite (IH _ Hnd). simpl.
    by rewrite <- insert_union_l, insert_union_r.
Qed.

(** The wire Entity of a command, whatever the order its tags are visited
    in. *)
Lemma entityTagCommandToEntity_spec (c : EntityTagCommand.t) :
  entityTagCommandToEntity c
  = {| Entity.Name := EntityTagCommand.Entity c; Entity.Tags := EntityTagCommand.Tags c |}.
Proof.
  unfold entityTagCommandToEntity.
  rewrite foldl_SetTag by apply range_kv_NoDup.
  rewrite range_kv_to_map. simpl. by rewrite (right_id_L ∅ (∪)).
Qed.

Lemma entityTagCommandsToEntities_fmap (cmds : list EntityTagCommand.t) :
  entityTagCommandsToEntities cmds = entityTagCommandToEntity <$> cmds.
Proof.
  unfold entityTagCommandsToEntities.
  cut (∀ acc, foldl (λ entities c, entities ++ [entityTagCommandToEntity c]) acc cmds
              = acc ++ (entityTagCommandToEntity <$> cmds)).
  { intros Hcut. apply Hcut. }
  induction cmds as [|c cmds IH]; intros acc; simpl.
  - by rewrite app_nil_r.
  - rewrite IH. by rewrite <- app_assoc.
Qed.

(** The loop over the entities always runs to its end. *)
Lemma for_each_prior_entity_Done (entities : list Entity.t) (hc : HttpCommunicator.t W) :
  (for_each prior_entity entities tt hc).1 = Done tt.
Proof.
  revert hc. induction entities as [|entity entities IH]; intros hc; [done|].
  simpl. unfold bind at 1.
  assert ((prior_entity entity tt hc).1 = Done tt) as Hbody.
  { unfold prior_entity, bind, call, glog_Error, emit, ret. simpl.
    destruct (respond (EntitiesUpdate entity) _).1; simpl; [|done].
    by destruct (respond (EntitiesCreate entity) _).1. }
  destruct (prior_entity entity tt hc) as [o hc']. simpl in Hbody. subst o. apply IH.
Qed.

Lemma for_each_prior_entity_app (before after : list Entity.t) (hc : HttpCommunicator.t W) :
  for_each prior_entity (before ++ after) tt hc
  = for_each prior_entity after tt (for_each prior_entity before tt hc).2.
Proof.
  revert hc. induction before as [|entity before IH]; intros hc; [done|].
  simpl. unfold bind.
  pose proof (for_each_prior_entity_Done [entity] hc) as Hbody.
  simpl in Hbody. unfold bind, ret in Hbody.
  destruct (prior_entity entity tt hc) as [[[]| |msg] hc']; done.
Qed.

(** The body of the loop on an entity whose update fails and whose creation
    succeeds: the two calls, and nothing else. *)
Lemma prior_entity_fallback (entity : Entity.t) (err : Err) (w1 w2 : W)
    (hc : HttpCommunicator.t W) :
  respond (EntitiesUpdate entity) (HttpCommunicator.client hc) = (Some err, w1) →
  respond (EntitiesCreate entity) w1 = (None, w2) →
  prior_entity entity tt hc
  = (Done tt,
     {| HttpCommunicator.client := w2;
        HttpCommunicator.counters := HttpCommunicator.counters hc;
        HttpCommunicator.offered := HttpCommunicator.offered hc;
        HttpCommunicator.trace :=
          HttpCommunicator.trace hc ++
            [EvCall (EntitiesUpdate entity) (Some err); EvCall (EntitiesCreate entity) None] |}).
Proof.
  intros Hupdate Hcreate.
  unfold prior_entity, bind, call, ret. simpl. rewrite Hupdate. simpl.
  rewrite Hcreate. simpl. by rewrite <- app_assoc.
Qed.

Lemma PriorSendData_fallback seriesCommands (before : list EntityTagCommand.t)
    (command : EntityTagCommand.t) (after : list EntityTagCommand.t)
    propertyCommands messageCommands (err : Err) (w1 w2 : W) (hc : HttpCommunicator.t W) :
  respond (EntitiesUpdate (entityTagCommandToEntity command))
    (HttpCommunicator.client
       (for_each prior_entity (entityTagCommandsToEntities before) tt hc).2)
  = (Some err, w1) →
  respond (EntitiesCreate (entityTagCommandToEntity command)) w1 = (None, w2) →
  PriorSendData seriesCommands (before ++ command :: after) propertyCommands
    messageCommands hc
  = PriorSendData seriesCommands after propertyCommands messageCommands
      {| HttpCommunicator.client := w2;
         HttpCommunicator.counters :=
           HttpCommunicator.counters
             (for_each prior_entity (entityTagCommandsToEntities before) tt hc).2;
         HttpCommunicator.offered :=
           HttpCommunicator.offered
             (for_each prior_entity (entityTagCommandsToEntities before) tt hc).2;
         HttpCommunicator.trace :=
           HttpCommunicator.trace
             (for_each prior_entity (entityTagCommandsToEntities before) tt hc).2 ++
             [EvCall (EntitiesUpdate (entityTagCommandToEntity command)) (Some err);
              EvCall (EntitiesCreate (entityTagCommandToEntity command)) None] |}.
Proof.
  intros Hupdate Hcreate. unfold PriorSendData.
  rewrite !entityTagCommandsToEntities_fmap in *. rewrite fmap_app, fmap_cons.
  unfold bind at 1 5. rewrite for_each_prior_entity_app.
  change (for_each prior_entity
            (entityTagCommandToEntity command :: (entityTagCommandToEntity <$> after)) tt)
    with (bind (prior_entity (entityTagCommandToEntity command) tt)
               (λ s', for_each prior_entity (entityTagCommandToEntity <$> after) s')).
  unfold bind at 1.
  by rewrite (prior_entity_fallback _ err w1 w2 _ Hupdate Hcreate).
Qed.

(** C7 (as amended).  When [PriorSendData] reaches an entity-tag command
    whose [Entities.Update] fails and whose [Entities.Create] then succeeds,
    it makes these two calls and goes on with the rest of the batch: one
    Create attempt, no further attempt, nothing logged, the counters as they
    were.  The call returns no error (it has no result). *)
Theorem PriorSendData_update_fails_create_succeeds seriesCommands
    (before : list EntityTagCommand.t) (command : EntityTagCommand.t)
    (after : list EntityTagCommand.t) propertyCommands messageCommands
    (err : Err) (w1 w2 : W) (hc : HttpCommunicator.t W) :
  respond (EntitiesUpdate (entityTagCommandToEntity command))
    (HttpCommunicator.client
       (for_each prior_entity (entityTagCommandsToEntities before) tt hc).2)
  = (Some err, w1) →
  respond (EntitiesCreate (entityTagCommandToEntity command)) w1 = (None, w2) →
  ∃ evs,
    PriorSendData seriesCommands (before ++ command :: after) propertyCommands
      messageCommands hc
    = PriorSendData seriesCommands after propertyCommands messageCommands
        {| HttpCommunicator.client := w2;
           HttpCommunicator.counters :=
             HttpCommunicator.counters
               (for_each prior_entity (entityTagCommandsToEntities before) tt hc).2;
           HttpCommunicator.offered :=
             HttpCommunicator.offered
               (for_each prior_entity (entityTagCommandsToEntities before) tt hc).2;
           HttpCommunicator.trace :=
             HttpCommunicator.trace
               (for_each prior_entity (entityTagCommandsToEntities before) tt hc).2 ++ evs |}
    ∧ calls evs
      = [ (EntitiesUpdate (entityTagCommandToEntity command), Some err);
          (EntitiesCreate (entityTagCommandToEntity command), None) ]
    ∧ errors_logged evs = []
    ∧ sleeps evs = [].
Proof.
  intros Hupdate Hcreate.
  exists [EvCall (EntitiesUpdate (entityTagCommandToEntity command)) (Some err);
          EvCall (EntitiesCreate (entityTagCommandToEntity command)) None].
  split; [by apply (PriorSendData_fallback _ _ _ _ _ _ err w1 w2)|]. by repeat split.
Qed.

End prior_facts.

(** ** The communicator on the test doubles *)

Lemma PriorSendData_update_fails_create_succeeds_witness :
  @respond _ scripted_client
    (EntitiesUpdate (@entityTagCommandToEntity listed_range host_tags)) refusing_once
  = (Some "503", [])
  ∧ @respond _ scripted_client
      (EntitiesCreate (@entityTagCommandToEntity listed_range host_tags)) []
    = (None, [])
  ∧ ∃ evs,
      @PriorSendData _ scripted_client listed_range [] ([] ++ host_tags :: []) [] []
        (NewHttpCommunicator refusing_once)
      = @PriorSendData _ scripted_client listed_range [] [] [] []
          {| HttpCommunicator.client := [];
             HttpCommunicator.counters := httpCounters.zero;
             HttpCommunicator.offered := [];
             HttpCommunicator.trace := [] ++ evs |}
      ∧ calls evs
        = [ (EntitiesUpdate (@entityTagCommandToEntity listed_range host_tags), Some "503");
            (EntitiesCreate (@entityTagCommandToEntity listed_range host_tags), None) ]
      ∧ errors_logged evs = []
      ∧ sleeps evs = [].
Proof.
  split; [reflexivity|]. split; [reflexivity|].
  exact (@PriorSendData_update_fails_create_succeeds _ scripted_client listed_range
           [] [] host_tags [] [] [] "503" [] [] (NewHttpCommunicator refusing_once)
           eq_refl eq_refl).
Defined.

(** C7, the claim as it is written, fails in its parenthesis: the update of
    the entity fails, the creation succeeds, and the call returns with
    nothing logged, in whatever order maps are iterated.  A line is logged
    only when the creation fails too. *)
Lemma failed_update_is_not_logged :
  (∀ R : GoRange,
     @PriorSendData _ scripted_client R [] [host_tags] [] []
       (NewHttpCommunicator refusing_once)
     = (Done tt,
        {| HttpCommunicator.client := [];
           HttpCommunicator.counters := httpCounters.zero;
           HttpCommunicator.offered := [];
           HttpCommunicator.trace :=
             [ EvCall (EntitiesUpdate host_entity) (Some "503");
               EvCall (EntitiesCreate host_entity) None ] |}))
  ∧ errors_logged [ EvCall (EntitiesUpdate host_entity) (Some "503");
                    EvCall (EntitiesCreate host_entity) None ] = [].
Proof.
  split; [|reflexivity]. intros R.
  change [host_tags] with ([] ++ host_tags :: []).
  rewrite (@PriorSendData_fallback _ scripted_client R [] [] host_tags [] [] []
             "503" [] [] (NewHttpCommunicator refusing_once) eq_refl eq_refl).
  by rewrite entityTagCommandToEntity_spec.
Qed.

(** When the creation fails as well, that failure is logged once, and no
    third call is made. *)
Example both_calls_fail_is_logged :
  @PriorSendData _ scripted_client listed_range [] [host_tags] [] []
    (NewHttpCommunicator [Some "503"; Some "409"])
  = (Done tt,
     {| HttpCommunicator.client := [];
        HttpCommunicator.counters := httpCounters.zero;
        HttpCommunicator.offered := [];
        HttpCommunicator.trace :=
          [ EvCall (EntitiesUpdate host_entity) (Some "503");
            EvCall (EntitiesCreate host_entity) (Some "409");
            EvError [LStr "Could not prior send entity update: "; LErr "409"] ] |}).
Proof. by vm_compute. Qed.

Lemma sample_state_reachable :
  @reachable _ scripted_client _ exp_backoff listed_range flaky_store sample_state.
Proof.
  unfold reachable, sample_state, serve_next.
  eapply rtc_r; [|by eapply (step_dispatch 5 0)].
  eapply rtc_r; [|by eapply (step_dispatch 5 0)].
  eapply rtc_r; [|by eapply (step_dispatch 5 0)].
  eapply rtc_r; [|by eapply (step_dispatch 5 0)].
  eapply rtc_once, step_queued.
Qed.

Lemma dropped_counters_stay_zero_witness :
  @reachable _ scripted_client _ exp_backoff listed_range flaky_store sample_state
  ∧ dropped_counters (HttpCommunicator.counters sample_state) = (0, 0, 0, 0)%Z
  ∧ length (@SelfMetricValues _ scripted_client sample_state) = 8
  ∧ Forall (λ n, {| name := n; tags := {[ "transport" := "https" ]}; value := Int64 0 |}
               ∈ @SelfMetricValues _ scripted_client sample_state)
           dropped_metric_names
  ∧ ∀ mv, mv ∈ @SelfMetricValues _ scripted_client sample_state →
          is_dropped_metric mv → value mv = Int64 0.
Proof.
  split; [exact sample_state_reachable|].
  exact (proj2 (proj2 (proj2
           (@dropped_counters_stay_zero _ scripted_client _ exp_backoff listed_range)))
           flaky_store sample_state sample_state_reachable).
Defined.

(** The sample run, evaluated: the entity created on the second attempt
    after one wait, one message and one wire Series sent, nothing left to
    receive, no drop. *)
Example sample_state_counters :
  HttpCommunicator.counters sample_state
  = {| httpCounters.series := {| counter.sent := 1; counter.dropped := 0 |};
       httpCounters.entityTag := {| counter.sent := 1; counter.dropped := 0 |};
       httpCounters.prop := counter.zero;
       httpCounters.messages := {| counter.sent := 1; counter.dropped := 0 |} |}
  ∧ HttpCommunicator.offered sample_state = []
  ∧ length (calls (HttpCommunicator.trace sample_state)) = 5
  ∧ sleeps (HttpCommunicator.trace sample_state) = [100000000]%Z.
Proof. by vm_compute. Qed.

(** [PriorSendData] delivers and counts nothing. *)
Example prior_send_is_not_counted :
  HttpCommunicator.counters
    (@PriorSendData _ scripted_client listed_range [cpu_first; cpu_second] [host_tags] []
       [disk_warning] (NewHttpCommunicator [])).2
  = httpCounters.zero
  ∧ length (calls (HttpCommunicator.trace
      (@PriorSendData _ scripted_client listed_range [cpu_first; cpu_second] [host_tags] []
         [disk_warning] (NewHttpCommunicator [])).2)) = 3.
Proof. by vm_compute. Qed.

(** * Further properties *)

(** ** The non-chunked series transformer, in full *)

Section series_further.
Context {order : GoRange}.

Lemma foldl_series_of_metric command timestamp series (l : list (string * Number)) :
  foldl (series_of_metric command timestamp) series l
  = series ++ ((λ kv, single_sample_series command timestamp kv.1 kv.2) <$> l).
Proof.
  revert series. induction l as [|kv l IH]; intros series; simpl.
  - by rewrite app_nil_r.
  - rewrite IH. unfold series_of_metric. by rewrite <- app_assoc.
Qed.

Lemma seriesCommandsToSeries_loop_members cmds series :
  Forall stamped cmds →
  ∃ out, seriesCommandsToSeries_loop series cmds = Ok (series ++ out)
    ∧ ∀ s, s ∈ out ↔
        ∃ c key val ts,
          c ∈ cmds ∧ SeriesCommand.Metrics c !! key = Some val
          ∧ SeriesCommand.Timestamp c = Some ts
          ∧ s = single_sample_series c ts key val.
Proof.
  intros Hst. revert series.
  induction Hst as [|c cmds [ts Hts] _ IH]; intros series; simpl.
  - exists []. rewrite app_nil_r. split; [done|]. intros s. split.
    + by intros ?%not_elem_of_nil.
    + by intros (c & ? & ? & ? & ?%not_elem_of_nil & _).
  - rewrite Hts, foldl_series_of_metric.
    match goal with |- context [seriesCommandsToSeries_loop ?acc cmds] =>
      destruct (IH acc) as (out & -> & Hout)
    end.
    eexists (_ ++ out). split; [by rewrite <- app_assoc|].
    intros s. rewrite elem_of_app, list_elem_of_fmap, Hout. split.
    + intros [([key val] & -> & Hkv%range_kv_elem)
             |(c' & key & val & ts' & Hin & Hkey & Hts' & ->)].
      * exists c, key, val, ts. split; [apply list_elem_of_here|done].
      * exists c', key, val, ts'. split; [by apply list_elem_of_further|done].
    + intros (c' & key & val & ts' & [->|Hin]%elem_of_cons & Hkey & Hts' & ->).
      * left. exists (key, val). rewrite range_kv_elem.
        split; [|done]. simpl. congruence.
      * right. by exists c', key, val, ts'.
Qed.

(** X1.  On a batch whose commands all carry a timestamp, the wire Series
    that [seriesCommandsToSeries] returns are exactly the Series made of one
    metric of one command: that command's entity and tags, the metric name,
    and the single sample of the command's timestamp and the metric's
    value.  So every returned Series has one sample. *)
Theorem seriesCommandsToSeries_members (batch : list SeriesCommand.t) :
  Forall stamped batch →
  ∃ out,
    seriesCommandsToSeries batch = Ok out
    ∧ (∀ s, s ∈ out ↔
         ∃ c key val ts,
           c ∈ batch ∧ SeriesCommand.Metrics c !! key = Some val
           ∧ SeriesCommand.Timestamp c = Some ts
           ∧ s = single_sample_series c ts key val)
    ∧ Forall (λ s, length (Series.Data s) = 1) out.
Proof.
  intros Hst.
  destruct (seriesCommandsToSeries_loop_members batch [] Hst) as (out & Hrun & Hout).
  exists out. split; [done|]. split; [done|].
  apply Forall_forall. intros s (c & key & val & ts & _ & _ & _ & ->)%Hout. done.
Qed.

(** X2.  [seriesCommandsToSeries] panics, with "Nil timestamp!", exactly on
    the batches that have a command without a timestamp, and returns exactly
    on the batches whose commands all have one. *)
Theorem seriesCommandsToSeries_panics_iff (batch : list SeriesCommand.t) :
  (seriesCommandsToSeries batch = Panic "Nil timestamp!"
   ↔ Exists (λ c, SeriesCommand.Timestamp c = None) batch)
  ∧ ((∃ out, seriesCommandsToSeries batch = Ok out) ↔ Forall stamped batch).
Proof.
  destruct (Forall_Exists_dec stamped (λ c, SeriesCommand.Timestamp c = None)
              (λ c, match SeriesCommand.Timestamp c as o
                      return {is_Some o} + {o = None} with
                    | Some ts => left (ex_intro _ ts eq_refl)
                    | None => right eq_refl
                    end) batch) as [Hall|Hex].
  - destruct (seriesCommandsToSeries_loop_stamped batch [] Hall) as (out & Hout & _).
    unfold seriesCommandsToSeries. rewrite Hout. split; split; try done.
    + intros Hex. apply Exists_exists in Hex as (c & Hin & Hc).
      rewrite Forall_forall in Hall. destruct (Hall c Hin) as [ts Hts]. congruence.
    + intros _. by exists out.
  - pose proof (seriesCommandsToSeries_loop_nil_timestamp batch [] Hex) as Hrun.
    unfold seriesCommandsToSeries. rewrite Hrun. split; split; try done.
    + by intros [out ?].
    + intros Hall. apply Exists_exists in Hex as (c & Hin & Hc).
      rewrite Forall_forall in Hall. destruct (Hall c Hin) as [ts Hts]. congruence.
Qed.

(** ** The chunked series transformer and commands without metrics *)

Lemma drain_bare (c : SeriesCommand.t) (rest : list SeriesCommand.t) (seriesMap : gmap string Series.t) :
  ¬ populated c → drain (c :: rest) seriesMap = drain rest seriesMap.
Proof.
  intros Hbare. simpl.
  assert (SeriesCommand.Metrics c = ∅) as ->.
  { unfold populated in Hbare. by destruct (decide (SeriesCommand.Metrics c = ∅)). }
  by rewrite range_kv_empty.
Qed.

Lemma drain_filter_populated (chunk : list SeriesCommand.t) (seriesMap : gmap string Series.t) :
  drain chunk seriesMap = drain (filter populated chunk) seriesMap.
Proof.
  revert seriesMap. induction chunk as [|c chunk IH]; intros seriesMap; [done|].
  rewrite filter_cons. destruct (decide (populated c)) as [Hpop|Hbare].
  - simpl. destruct (range_loop _ _ _); [apply IH|done].
  - rewrite drain_bare by done. apply IH.
Qed.

Lemma seriesCommandsChunkToSeries_filter_populated (chunk : list SeriesCommand.t) :
  seriesCommandsChunkToSeries chunk = seriesCommandsChunkToSeries (filter populated chunk).
Proof.
  unfold seriesCommandsChunkToSeries.
  rewrite (drain_filter_populated chunk).
  destruct (decide (0 < Chunk.Len chunk)) as [Hlen|Hlen];
    destruct (decide (0 < Chunk.Len (filter populated chunk))) as [Hlen'|Hlen']; try done.
  - assert (filter populated chunk = []) as ->
      by (destruct (filter populated chunk); [done|simpl in Hlen'; lia]).
    simpl. by rewrite range_kv_empty.
  - assert (chunk = []) as -> by (destruct chunk; [done|simpl in Hlen; lia]).
    simpl in Hlen'. lia.
  - by assert (chunk = []) as -> by (destruct chunk; [done|simpl in Hlen; lia]).
Qed.

Lemma seriesCommandsChunkToSeries_stamped_map (cmds : list SeriesCommand.t) :
  Forall stamped cmds →
  ∃ seriesMap : gmap string Series.t,
    seriesCommandsChunkToSeries cmds = Ok ((range_kv seriesMap).*2, [])
    ∧ ∀ k, seriesMap !! k = grouped_series k cmds.
Proof.
  intros Hst. unfold seriesCommandsChunkToSeries.
  destruct (drain_stamped cmds ∅ Hst) as (sm & Hrun & Hsm).
  destruct (decide (0 < Chunk.Len cmds)) as [Hlen|Hlen].
  - exists sm. rewrite Hrun, foldl_snoc_snd. split; [done|].
    intros k. by rewrite Hsm, lookup_empty, grouped_None.
  - assert (cmds = []) as -> by (destruct cmds; [done|simpl in Hlen; lia]).
    exists ∅. rewrite range_kv_empty. split; [done|]. intros k. by rewrite lookup_empty.
Qed.

Lemma seriesCommandsChunkToSeries_nil_timestamp (cmds : list SeriesCommand.t) :
  Exists (λ c, SeriesCommand.Timestamp c = None ∧ populated c) cmds →
  seriesCommandsChunkToSeries cmds = Panic "Nil timestamp!".
Proof.
  intros Hex. unfold seriesCommandsChunkToSeries.
  rewrite decide_True by (destruct Hex; simpl; lia).
  by rewrite (drain_nil_timestamp cmds ∅ Hex).
Qed.

(** X4.  [seriesCommandsChunkToSeries] panics, with "Nil timestamp!",
    exactly on the chunks that have a command with a metric and without a
    timestamp; on every other chunk it returns and leaves the chunk
    empty. *)
Theorem seriesCommandsChunkToSeries_panics_iff (chunk : Chunk.t) :
  (seriesCommandsChunkToSeries chunk = Panic "Nil timestamp!"
   ↔ Exists (λ c, SeriesCommand.Timestamp c = None ∧ populated c) chunk)
  ∧ ((∃ series, seriesCommandsChunkToSeries chunk = Ok (series, []))
     ↔ Forall (λ c, populated c → stamped c) chunk).
Proof.
  destruct (Forall_Exists_dec (λ c, populated c → stamped c)
              (λ c, SeriesCommand.Timestamp c = None ∧ populated c)
              (λ c, match SeriesCommand.Timestamp c as o
                      return {populated c → is_Some o} + {o = None ∧ populated c} with
                    | Some ts => left (λ _, ex_intro _ ts eq_refl)
                    | None =>
                        match decide (populated c) with
                        | left Hpop => right (conj eq_refl Hpop)
                        | right Hbare => left (λ Hpop, False_rect _ (Hbare Hpop))
                        end
                    end) chunk) as [Hall|Hex].
  - assert (Forall stamped (filter populated chunk)) as Hst.
    { apply Forall_forall. intros c [Hpop Hin]%list_elem_of_filter.
      rewrite Forall_forall in Hall. by apply Hall. }
    destruct (seriesCommandsChunkToSeries_stamped _ Hst) as (series & Hrun & _).
    assert (seriesCommandsChunkToSeries chunk = Ok (series, [])) as Hrun'.
    { rewrite (seriesCommandsChunkToSeries_filter_populated chunk). exact Hrun. }
    rewrite Hrun'. split; split; try done.
    + intros Hex. apply Exists_exists in Hex as (c & Hin & Hts & Hpop).
      rewrite Forall_forall in Hall. destruct (Hall c Hin Hpop) as [ts Hts']. congruence.
    + intros _. by exists series.
  - assert (seriesCommandsChunkToSeries chunk = Panic "Nil timestamp!") as Hrun.
    { unfold seriesCommandsChunkToSeries.
      rewrite decide_True by (destruct Hex; simpl; lia).
      by rewrite (drain_nil_timestamp chunk ∅ Hex). }
    rewrite Hrun. split; split; try done.
    + by intros [series ?].
    + intros Hall. apply Exists_exists in Hex as (c & Hin & Hts & Hpop).
      rewrite Forall_forall in Hall. destruct (Hall c Hin Hpop) as [ts Hts']. congruence.
Qed.

End series_further.

(** X3.  The chunked transformer ignores the commands whose metric mapping
    is empty, with or without a timestamp.  A run on the chunk and a run on
    the chunk without these commands, each visiting its maps in an order of
    its own, end alike: both panic with the same value, or both return,
    with the chunk empty and the same wire Series up to the order of the
    returned slice. *)
Theorem chunk_ignores_commands_without_metrics (first_run second_run : GoRange)
    (chunk : Chunk.t) :
  match @seriesCommandsChunkToSeries first_run chunk,
        @seriesCommandsChunkToSeries second_run (filter populated chunk) with
  | Ok (series, drained), Ok (series', drained') =>
      series ≡ₚ series' ∧ drained = [] ∧ drained' = []
  | Panic msg, Panic msg' => msg = msg'
  | _, _ => False
  end.
Proof.
  unfold Chunk.t in *.
  rewrite (@seriesCommandsChunkToSeries_filter_populated first_run chunk).
  destruct (Forall_Exists_dec (λ c, populated c → stamped c)
              (λ c, SeriesCommand.Timestamp c = None ∧ populated c)
              (λ c, match SeriesCommand.Timestamp c as o
                      return {populated c → is_Some o} + {o = None ∧ populated c} with
                    | Some ts => left (λ _, ex_intro _ ts eq_refl)
                    | None =>
                        match decide (populated c) with
                        | left Hpop => right (conj eq_refl Hpop)
                        | right Hbare => left (λ Hpop, False_rect _ (Hbare Hpop))
                        end
                    end) chunk) as [Hall|Hex].
  - assert (Forall stamped (filter populated chunk)) as Hst.
    { apply Forall_forall. intros c [Hpop Hin]%list_elem_of_filter.
      rewrite Forall_forall in Hall. by apply Hall. }
    destruct (@seriesCommandsChunkToSeries_stamped_map first_run _ Hst)
      as (sm1 & -> & Hsm1).
    destruct (@seriesCommandsChunkToSeries_stamped_map second_run _ Hst)
      as (sm2 & -> & Hsm2).
    assert (sm1 = sm2) as -> by (apply map_eq; intros k; by rewrite Hsm1, Hsm2).
    split; [|done].
    by rewrite (@range_kv_perm first_run), (@range_kv_perm second_run).
  - assert (Exists (λ c, SeriesCommand.Timestamp c = None ∧ populated c)
                   (filter populated chunk)) as Hex'.
    { apply Exists_exists in Hex as (c & Hin & Hts & Hpop).
      apply Exists_exists. exists c. split; [by apply list_elem_of_filter|done]. }
    rewrite (@seriesCommandsChunkToSeries_nil_timestamp first_run _ Hex').
    by rewrite (@seriesCommandsChunkToSeries_nil_timestamp second_run _ Hex').
Qed.

(** Two runs that visit the maps in different orders return the two wire
    Series in different orders. *)
Example two_orders_two_slices :
  ∃ series series',
    @seriesCommandsChunkToSeries listed_range [host_load; bare_command] = Ok (series, [])
    ∧ @seriesCommandsChunkToSeries reversed_range [host_load] = Ok (series', [])
    ∧ series' = reverse series
    ∧ Series.Metric <$> series ≠ Series.Metric <$> series'.
Proof.
  eexists _, _. split; [by vm_compute|]. split; [by vm_compute|].
  split; [by vm_compute|]. intros Heq. by vm_compute in Heq.
Qed.

(** ** The chunked transformer loses and invents no sample *)

Section conservation.
Context {order : GoRange}.

Lemma samples_held_insert (seriesMap : gmap string Series.t) (key : string) (s : Series.t) :
  seriesMap !! key = None →
  samples_held (<[key := s]> seriesMap) = length (Series.Data s) + samples_held seriesMap.
Proof.
  intros Hkey. unfold samples_held. by rewrite map_to_list_insert.
Qed.

Lemma samples_held_append (seriesMap : gmap string Series.t) (key : string)
    (s : Series.t) (smp : Sample.t) :
  seriesMap !! key = Some s →
  samples_held (alter (Series.append_Data smp) key seriesMap) = S (samples_held seriesMap).
Proof.
  intros Hkey. rewrite <- (insert_delete_id seriesMap key s Hkey) at 2.
  rewrite <- (insert_delete_id seriesMap key s Hkey) at 1.
  rewrite alter_insert_eq.
  rewrite !samples_held_insert by apply lookup_delete_eq.
  simpl. rewrite length_app. simpl. lia.
Qed.

Lemma chunk_sample_held c (seriesMap seriesMap' : gmap string Series.t) kv :
  chunk_sample c seriesMap kv = Ok seriesMap' →
  samples_held seriesMap' = S (samples_held seriesMap).
Proof.
  unfold chunk_sample. destruct (SeriesCommand.Timestamp c) as [ts|]; [|done].
  intros [= <-]. destruct (seriesMap !! kv.1) as [s|] eqn:Hkey.
  - by apply samples_held_append with s.
  - erewrite samples_held_append by apply lookup_insert_eq.
    by rewrite samples_held_insert.
Qed.

Lemma range_loop_held c (l : list (string * Number))
    (seriesMap seriesMap' : gmap string Series.t) :
  range_loop (chunk_sample c) seriesMap l = Ok seriesMap' →
  samples_held seriesMap' = samples_held seriesMap + length l.
Proof.
  revert seriesMap. induction l as [|kv l IH]; intros seriesMap; simpl.
  - intros [= <-]. lia.
  - destruct (chunk_sample c seriesMap kv) as [sm1|] eqn:Hstep; [|done].
    intros Hrun. rewrite (IH _ Hrun), (chunk_sample_held _ _ _ _ Hstep). lia.
Qed.

Lemma drain_held (chunk rest : list SeriesCommand.t)
    (seriesMap seriesMap' : gmap string Series.t) :
  drain chunk seriesMap = Ok (seriesMap', rest) →
  samples_held seriesMap' = samples_held seriesMap + metric_pairs chunk.
Proof.
  revert seriesMap. induction chunk as [|c chunk IH]; intros seriesMap; simpl.
  - intros [= <- _]. unfold metric_pairs. simpl. lia.
  - destruct (range_loop _ _ _) as [sm1|] eqn:Hloop; [|done].
    intros Hrun. rewrite (IH _ Hrun), (range_loop_held _ _ _ _ Hloop), range_kv_length.
    change (metric_pairs (c :: chunk))
      with (size (SeriesCommand.Metrics c) + metric_pairs chunk).
    lia.
Qed.

(** X5.  Whenever the chunked transformer returns, the wire Series it
    returns hold, together, as many samples as the commands of the chunk
    have metrics: every (command, metric) pair became one sample of one
    Series. *)
Theorem chunk_keeps_every_sample (chunk drained : Chunk.t) (series : list Series.t) :
  seriesCommandsChunkToSeries chunk = Ok (series, drained) →
  samples_total series = metric_pairs chunk.
Proof.
  unfold seriesCommandsChunkToSeries. case_decide as Hlen.
  - destruct (drain chunk ∅) as [[seriesMap rest]|] eqn:Hrun; [|done].
    intros [= <- _]. rewrite foldl_snoc_snd. simpl.
    pose proof (drain_held _ _ _ _ Hrun) as Hheld.
    unfold samples_held in Hheld at 2. rewrite map_to_list_empty in Hheld. simpl in Hheld.
    rewrite <- Hheld. unfold samples_total, samples_held.
    rewrite <- (range_kv_perm seriesMap).
    induction (range_kv seriesMap) as [|kv l IH]; simpl; [done|]. f_equal. exact IH.
  - intros [= <- _].
    by assert (chunk = []) as -> by (destruct chunk; [done|simpl in Hlen; lia]).
Qed.

End conservation.

Lemma chunk_keeps_every_sample_witness :
  @seriesCommandsChunkToSeries listed_range [cpu_first; cpu_second] = Ok ([cpu_grouped], [])
  ∧ samples_total [cpu_grouped] = metric_pairs [cpu_first; cpu_second].
Proof.
  assert (@seriesCommandsChunkToSeries listed_range [cpu_first; cpu_second]
          = Ok ([cpu_grouped], [])) as Hrun by (by vm_compute).
  split; [exact Hrun|].
  exact (@chunk_keeps_every_sample listed_range _ _ _ Hrun).
Defined.

Lemma seriesCommandsToSeries_members_witness :
  Forall stamped [cpu_first; cpu_second]
  ∧ ∃ out,
      @seriesCommandsToSeries listed_range [cpu_first; cpu_second] = Ok out
      ∧ (∀ s, s ∈ out ↔
           ∃ c key val ts,
             c ∈ [cpu_first; cpu_second] ∧ SeriesCommand.Metrics c !! key = Some val
             ∧ SeriesCommand.Timestamp c = Some ts
             ∧ s = single_sample_series c ts key val)
      ∧ Forall (λ s, length (Series.Data s) = 1) out.
Proof.
  split; [exact sample_chunk_stamped|].
  exact (@seriesCommandsToSeries_members listed_range _ sample_chunk_stamped).
Defined.

(** ** The entity and message transformers, in full *)

Section record_further.
Context {order : GoRange}.

(** X6.  [entityTagCommandsToEntities] returns one wire Entity per command,
    in the order of the commands, named after the command's entity and
    tagged with exactly the command's tags, in whatever order the tags are
    visited.  Commands that name the same entity are not merged. *)
Theorem entityTagCommandsToEntities_exact (entityTagCommands : list EntityTagCommand.t) :
  entityTagCommandsToEntities entityTagCommands
  = (λ c, {| Entity.Name := EntityTagCommand.Entity c;
             Entity.Tags := EntityTagCommand.Tags c |}) <$> entityTagCommands.
Proof.
  rewrite entityTagCommandsToEntities_fmap.
  apply list_fmap_ext. intros i c _. apply entityTagCommandToEntity_spec.
Qed.

(** X7.  [messageCommandsToProperties] returns one wire Message per command,
    in the order of the commands: the entity, the text, all the tags of the
    command and its timestamp if it has one; the severity, source and type
    fields are the values of the tags of these names, and stay unset when
    the command has no such tag.  The order the tags are visited in does not
    matter. *)
Theorem messageCommandsToProperties_exact (messageCommands : list MessageCommand.t) :
  messageCommandsToProperties messageCommands
  = (λ c, {| Message.Entity := MessageCommand.Entity c;
             Message.Text := MessageCommand.Message c;
             Message.Severity := MessageCommand.Tags c !! "severity";
             Message.Source := MessageCommand.Tags c !! "source";
             Message.Type_ := MessageCommand.Tags c !! "type";
             Message.Tags := MessageCommand.Tags c;
             Message.Timestamp := MessageCommand.Timestamp c |}) <$> messageCommands.
Proof.
  rewrite messageCommandsToProperties_fmap.
  apply list_fmap_ext. intros i c _. apply messageCommandToMessage_spec.
Qed.

End record_further.

(** ** The submission paths *)

Section submission_further.
Context {W : Type} {store : StoreClient W} {order : GoRange}.

(** *** [PriorSendData] retries nothing *)

Lemma direct_ret {A} (P : Event → Prop) (a : A) : direct P 0 (ret a : M W A).
Proof. intros hc. exists []. simpl. by rewrite app_nil_r. Qed.

Lemma direct_crash {A} (P : Event → Prop) (msg : string) : direct P 0 (crash msg : M W A).
Proof. intros hc. exists []. simpl. by rewrite app_nil_r. Qed.

Lemma direct_call (P : Event → Prop) (op : ClientOp) :
  (∀ err, P (EvCall op err)) → direct P 1 (call op).
Proof.
  intros HP hc. exists [EvCall op (respond op (HttpCommunicator.client hc)).1].
  simpl. split; [done|]. split; [by constructor|]. split; [lia|]. done.
Qed.

Lemma direct_glog_Error (P : Event → Prop) (args : list LogArg) :
  P (EvError args) → direct P 0 (glog_Error args : M W unit).
Proof.
  intros HP hc. exists [EvError args].
  simpl. split; [done|]. split; [by constructor|]. split; [lia|]. done.
Qed.

Lemma direct_log_if_failed (P : Event → Prop) (prefix : string) (err : option Err) :
  (∀ args, P (EvError args)) → direct P 0 (log_if_failed prefix err : M W unit).
Proof. intros HP. destruct err; [by apply direct_glog_Error|apply direct_ret]. Qed.

Lemma direct_weaken {A} (P : Event → Prop) (n n' : nat) (m : M W A) :
  n ≤ n' → direct P n m → direct P n' m.
Proof.
  intros Hn Hm hc. destruct (Hm hc) as (evs & ? & ? & ? & ? & ?).
  exists evs. repeat split; [done|done|lia|done|done].
Qed.

Lemma calls_app (evs1 evs2 : list Event) : calls (evs1 ++ evs2) = calls evs1 ++ calls evs2.
Proof. apply omap_app. Qed.

Lemma direct_bind {A A'} (P : Event → Prop) (n1 n2 : nat) (m : M W A) (k : A → M W A') :
  direct P n1 m → (∀ a, direct P n2 (k a)) → direct P (n1 + n2) (bind m k).
Proof.
  intros Hm Hk hc. destruct (Hm hc) as (evs1 & Htr1 & HP1 & Hn1 & Hoff1 & Hret1).
  unfold bind. destruct (m hc) as [[a| |msg] hc1]; simpl in *.
  - destruct (Hk a hc1) as (evs2 & Htr2 & HP2 & Hn2 & Hoff2 & Hret2).
    exists (evs1 ++ evs2). rewrite Htr2, Htr1, Hoff2, Hoff1, calls_app, length_app.
    repeat split; [by rewrite app_assoc|by apply Forall_app|lia|done].
  - done.
  - exists evs1. repeat split; [done|done|lia|done|done].
Qed.

Lemma direct_for_each {A} (P : Event → Prop) (n : nat) (body : A → unit → M W unit)
    (l : list A) :
  (∀ x u, direct P n (body x u)) → direct P (n * length l) (for_each body l tt).
Proof.
  intros Hbody. induction l as [|x l IH]; simpl.
  - rewrite Nat.mul_0_r. apply direct_ret.
  - replace (n * S (length l)) with (n + n * length l) by lia.
    apply direct_bind; [apply Hbody|]. by intros [].
Qed.

Lemma direct_prior_entity (P : Event → Prop) (entity : Entity.t) (u : unit) :
  (∀ err, P (EvCall (EntitiesUpdate entity) err)) →
  (∀ err, P (EvCall (EntitiesCreate entity) err)) →
  (∀ args, P (EvError args)) →
  direct P 2 (prior_entity entity u).
Proof.
  intros HU HC HE. unfold prior_entity.
  apply (direct_bind P 1 1); [by apply direct_call|].
  intros [e|]; [|apply (direct_weaken P 0); [lia|apply direct_ret]].
  apply (direct_bind P 1 0); [by apply direct_call|].
  intros [e'|]; [by apply direct_glog_Error|apply direct_ret].
Qed.

Lemma direct_PriorSendData seriesCommands entityTagCommands propertyCommands
    messageCommands :
  direct no_sleep (2 * length entityTagCommands + 3)
    (PriorSendData seriesCommands entityTagCommands propertyCommands messageCommands).
Proof.
  unfold PriorSendData.
  apply direct_bind.
  { replace (length entityTagCommands)
      with (length (entityTagCommandsToEntities entityTagCommands))
      by (by rewrite entityTagCommandsToEntities_fmap, length_fmap).
    apply direct_for_each. intros entity u. by apply direct_prior_entity. }
  intros _. apply (direct_bind no_sleep 1 2).
  { case_decide; [|apply (direct_weaken no_sleep 0); [lia|apply direct_ret]].
    apply (direct_bind no_sleep 1 0); [by apply direct_call|].
    intros err. by apply direct_log_if_failed. }
  intros _. apply (direct_bind no_sleep 1 1).
  { case_decide; [|apply (direct_weaken no_sleep 0); [lia|apply direct_ret]].
    destruct (seriesCommandsToSeries seriesCommands);
      [|apply (direct_weaken no_sleep 0); [lia|apply direct_crash]].
    apply (direct_bind no_sleep 1 0); [by apply direct_call|].
    intros err. by apply direct_log_if_failed. }
  intros _. case_decide; [|apply (direct_weaken no_sleep 0); [lia|apply direct_ret]].
  apply (direct_bind no_sleep 1 0); [by apply direct_call|].
  intros err. by apply direct_log_if_failed.
Qed.

(** X9.  [PriorSendData] makes a single pass: it never sleeps and is never
    left retrying, it makes at most two Store Client calls per entity-tag
    command and three more, and it offers nothing to the dispatch loop. *)
Theorem PriorSendData_single_pass seriesCommands
    (entityTagCommands : list EntityTagCommand.t) propertyCommands messageCommands
    (hc : HttpCommunicator.t W) :
  ∃ evs,
    HttpCommunicator.trace
      (PriorSendData seriesCommands entityTagCommands propertyCommands messageCommands hc).2
    = HttpCommunicator.trace hc ++ evs
    ∧ sleeps evs = []
    ∧ length (calls evs) ≤ 2 * length entityTagCommands + 3
    ∧ HttpCommunicator.offered
        (PriorSendData seriesCommands entityTagCommands propertyCommands messageCommands hc).2
      = HttpCommunicator.offered hc
    ∧ (PriorSendData seriesCommands entityTagCommands propertyCommands messageCommands hc).1
      ≠ Retrying.
Proof.
  destruct (direct_PriorSendData seriesCommands entityTagCommands propertyCommands
              messageCommands hc) as (evs & Htr & Hquiet & Hcalls & Hoff & Hret).
  exists evs. repeat split; try done.
  clear -Hquiet. induction Hquiet as [|ev evs Hev _ IH]; [done|].
  destruct ev; simpl in *; done.
Qed.

End submission_further.

(** ** The dispatch loop *)

Section dispatch_further.
Context {W : Type} {store : StoreClient W} {B : Type} {policy : Backoff B} {order : GoRange}.

Lemma bind_Done_eq {A A'} (m : M W A) (k : A → M W A') hc a hc' :
  m hc = (Done a, hc') → bind m k hc = k a hc'.
Proof. intros Hm. unfold bind. by rewrite Hm. Qed.

Lemma bind_Done_inv {A A'} (m : M W A) (k : A → M W A') hc a' hc' :
  bind m k hc = (Done a', hc') →
  ∃ a hc1, m hc = (Done a, hc1) ∧ k a hc1 = (Done a', hc').
Proof.
  unfold bind. destruct (m hc) as [[a| |msg] hc1]; [|done|done].
  intros Hk. by exists a, hc1.
Qed.

(** The retry executor calls nothing but its task. *)
Lemma tryWhileNotComplete_calls (op : ClientOp) (taskName : string) :
  ∀ (fuel : nat) (expBackoff : B) (hc : HttpCommunicator.t W),
    ∃ evs,
      HttpCommunicator.trace
        (tryWhileNotComplete fuel (call op) taskName expBackoff hc).2
      = HttpCommunicator.trace hc ++ evs
      ∧ Forall (λ c, c.1 = op) (calls evs).
Proof.
  induction fuel as [|fuel IH]; intros expBackoff hc.
  - exists []. simpl. by rewrite app_nil_r.
  - rewrite tryWhileNotComplete_round.
    destruct (respond op (HttpCommunicator.client hc)).1 as [e|].
    + match goal with |- context [tryWhileNotComplete fuel _ _ ?b ?hc'] =>
        destruct (IH b hc') as (evs & -> & Hcalls)
      end.
      eexists (_ :: _ :: _ :: evs). split; [simpl; by rewrite <- app_assoc|].
      simpl. by constructor.
    + exists [EvCall op None]. split; [done|]. simpl. by constructor.
Qed.

(** A retried insert followed by its count. *)
Lemma insert_then_count (N fuel : nat) (op : ClientOp) (taskName : string) (expBackoff : B)
    on (delta : Z) (hc : HttpCommunicator.t W) :
  fails_then_succeeds N op (HttpCommunicator.client hc) →
  N < fuel →
  ∃ evs,
    bind (tryWhileNotComplete fuel (call op) taskName expBackoff)
         (λ expBackoff', bind (atomic_AddUint64_sent on delta) (λ _, ret expBackoff')) hc
    = (Done (Reset (advance N expBackoff)),
       {| HttpCommunicator.client := world_after (S N) op (HttpCommunicator.client hc);
          HttpCommunicator.counters :=
            on (counter.add_sent delta) (HttpCommunicator.counters hc);
          HttpCommunicator.offered := HttpCommunicator.offered hc;
          HttpCommunicator.trace := HttpCommunicator.trace hc ++ evs |})
    ∧ length (calls evs) = N + 1
    ∧ Forall (λ c, c.1 = op) (calls evs)
    ∧ sleeps evs = durations N expBackoff.
Proof.
  intros Hop Hfuel.
  destruct (retry_until_success N op taskName fuel expBackoff hc Hop Hfuel)
    as (evs & Hrun & Hcalls & Hsleeps & _).
  destruct (tryWhileNotComplete_calls op taskName fuel expBackoff hc)
    as (evs' & Htr & Honly).
  rewrite Hrun in Htr. simpl in Htr. apply app_inv_head in Htr as <-.
  exists evs. rewrite (bind_Done_eq _ _ _ _ _ Hrun). done.
Qed.

(** X10.  An iteration of the dispatch loop on a non-empty property batch,
    a non-empty message batch or a chunk that transforms to at least one
    wire Series, whose insert fails [N] times and then succeeds: the
    iteration returns after [N + 1] calls, all of them that insert of the
    transformed batch, it has slept for the first [N] waits of a fresh
    policy of 100 ms and 5 min, and it has added the number of wire objects
    to the sent counter of the kind and changed no other counter. *)
Theorem dispatch_inserts_and_counts (N fuel : nat) (hc : HttpCommunicator.t W) :
  N < fuel →
  (∀ propertyCommands,
     propertyCommands ≠ [] →
     fails_then_succeeds N (PropertiesInsert (propertyCommandsToProperties propertyCommands))
       (HttpCommunicator.client hc) →
     ∃ evs,
       dispatch fuel (OnPropertyCommands propertyCommands) hc
       = (Done tt,
          {| HttpCommunicator.client :=
               world_after (S N)
                 (PropertiesInsert (propertyCommandsToProperties propertyCommands))
                 (HttpCommunicator.client hc);
             HttpCommunicator.counters :=
               httpCounters.on_prop
                 (counter.add_sent
                    (Z.of_nat (length (propertyCommandsToProperties propertyCommands))))
                 (HttpCommunicator.counters hc);
             HttpCommunicator.offered := HttpCommunicator.offered hc;
             HttpCommunicator.trace := HttpCommunicator.trace hc ++ evs |})
       ∧ length (calls evs) = N + 1
       ∧ Forall (λ c, c.1 = PropertiesInsert (propertyCommandsToProperties propertyCommands))
                (calls evs)
       ∧ sleeps evs = durations N (NewExpBackoff (100 * Millisecond) (5 * Minute) : B))
  ∧ (∀ messageCommands,
       messageCommands ≠ [] →
       fails_then_succeeds N (MessagesInsert (messageCommandsToProperties messageCommands))
         (HttpCommunicator.client hc) →
       ∃ evs,
         dispatch fuel (OnMessageCommands messageCommands) hc
         = (Done tt,
            {| HttpCommunicator.client :=
                 world_after (S N)
                   (MessagesInsert (messageCommandsToProperties messageCommands))
                   (HttpCommunicator.client hc);
               HttpCommunicator.counters :=
                 httpCounters.on_messages
                   (counter.add_sent
                      (Z.of_nat (length (messageCommandsToProperties messageCommands))))
                   (HttpCommunicator.counters hc);
               HttpCommunicator.offered := HttpCommunicator.offered hc;
               HttpCommunicator.trace := HttpCommunicator.trace hc ++ evs |})
         ∧ length (calls evs) = N + 1
         ∧ Forall (λ c, c.1 = MessagesInsert (messageCommandsToProperties messageCommands))
                  (calls evs)
         ∧ sleeps evs = durations N (NewExpBackoff (100 * Millisecond) (5 * Minute) : B))
  ∧ (∀ seriesChunk series drained,
       seriesCommandsChunkToSeries seriesChunk = Ok (series, drained) →
       series ≠ [] →
       fails_then_succeeds N (SeriesInsert series) (HttpCommunicator.client hc) →
       ∃ evs,
         dispatch fuel (OnSeriesChunk seriesChunk) hc
         = (Done tt,
            {| HttpCommunicator.client :=
                 world_after (S N) (SeriesInsert series) (HttpCommunicator.client hc);
               HttpCommunicator.counters :=
                 httpCounters.on_series (counter.add_sent (Z.of_nat (length series)))
                   (HttpCommunicator.counters hc);
               HttpCommunicator.offered := HttpCommunicator.offered hc;
               HttpCommunicator.trace := HttpCommunicator.trace hc ++ evs |})
         ∧ length (calls evs) = N + 1
         ∧ Forall (λ c, c.1 = SeriesInsert series) (calls evs)
         ∧ sleeps evs = durations N (NewExpBackoff (100 * Millisecond) (5 * Minute) : B)).
Proof.
  intros Hfuel. split; [|split].
  - intros propertyCommands Hne Hop.
    destruct (insert_then_count N fuel _ "properties insert"
                (NewExpBackoff (100 * Millisecond) (5 * Minute)) httpCounters.on_prop
                (Z.of_nat (length (propertyCommandsToProperties propertyCommands)))
                hc Hop Hfuel) as (evs & Hrun & Hfacts).
    exists evs. split; [|done]. unfold dispatch.
    rewrite decide_True by (destruct propertyCommands; [done|simpl; lia]).
    by rewrite (bind_Done_eq _ _ _ _ _ Hrun).
  - intros messageCommands Hne Hop.
    destruct (insert_then_count N fuel _ "messages insert"
                (NewExpBackoff (100 * Millisecond) (5 * Minute)) httpCounters.on_messages
                (Z.of_nat (length (messageCommandsToProperties messageCommands)))
                hc Hop Hfuel) as (evs & Hrun & Hfacts).
    exists evs. split; [|done]. unfold dispatch.
    rewrite decide_True by (destruct messageCommands; [done|simpl; lia]).
    by rewrite (bind_Done_eq _ _ _ _ _ Hrun).
  - intros seriesChunk series drained Htransform Hne Hop.
    destruct (insert_then_count N fuel _ "series insert"
                (NewExpBackoff (100 * Millisecond) (5 * Minute)) httpCounters.on_series
                (Z.of_nat (length series)) hc Hop Hfuel) as (evs & Hrun & Hfacts).
    exists evs. split; [|done]. unfold dispatch. rewrite Htransform.
    rewrite decide_True by (destruct series; [done|simpl; lia]).
    by rewrite (bind_Done_eq _ _ _ _ _ Hrun).
Qed.

(** X11.  An iteration of the dispatch loop on an empty entity-tag batch, an
    empty property batch, an empty message batch, or a chunk none of whose
    commands has a metric, returns without a call to the Store Client and
    leaves the communicator as it was. *)
Theorem dispatch_of_nothing (fuel : nat) (hc : HttpCommunicator.t W) :
  dispatch fuel (OnEntityTag []) hc = (Done tt, hc)
  ∧ dispatch fuel (OnPropertyCommands []) hc = (Done tt, hc)
  ∧ dispatch fuel (OnMessageCommands []) hc = (Done tt, hc)
  ∧ ∀ seriesChunk : Chunk.t,
      Forall (λ c, ¬ populated c) seriesChunk →
      dispatch fuel (OnSeriesChunk seriesChunk) hc = (Done tt, hc).
Proof.
  split; [done|]. split; [done|]. split; [done|].
  intros seriesChunk Hbare. unfold dispatch.
  rewrite (seriesCommandsChunkToSeries_filter_populated seriesChunk).
  assert (filter populated (seriesChunk : list SeriesCommand.t) = []) as ->.
  { induction Hbare as [|c l Hc _ IH]; [done|].
    rewrite filter_cons. by rewrite decide_False. }
  done.
Qed.

(** X12.  An iteration of the dispatch loop on a chunk that has a command
    with a metric and without a timestamp panics with "Nil timestamp!"
    before any call to the Store Client: no counter, no trace and no offered
    value has changed. *)
Theorem dispatch_panics_on_nil_timestamp (fuel : nat) (seriesChunk : Chunk.t)
    (hc : HttpCommunicator.t W) :
  Exists (λ c, SeriesCommand.Timestamp c = None ∧ populated c) seriesChunk →
  dispatch fuel (OnSeriesChunk seriesChunk) hc = (Crashed "Nil timestamp!", hc).
Proof.
  intros Hex. unfold dispatch, seriesCommandsChunkToSeries.
  rewrite decide_True by (destruct Hex; simpl; lia).
  by rewrite (drain_nil_timestamp seriesChunk ∅ Hex).
Qed.

Lemma insert_then_count_pending (fuel : nat) (op : ClientOp) (taskName : string)
    (expBackoff : B) on (delta : Z) (hc : HttpCommunicator.t W) :
  (∃ b,
     (bind (tryWhileNotComplete fuel (call op) taskName expBackoff)
           (λ expBackoff', bind (atomic_AddUint64_sent on delta) (λ _, ret expBackoff'))
           hc).1 = Done b)
  ∨ HttpCommunicator.counters
      (bind (tryWhileNotComplete fuel (call op) taskName expBackoff)
            (λ expBackoff', bind (atomic_AddUint64_sent on delta) (λ _, ret expBackoff'))
            hc).2
    = HttpCommunicator.counters hc.
Proof.
  unfold bind.
  pose proof (preserves_tryWhileNotComplete id fuel (call op) taskName expBackoff
                (preserves_call id op) hc) as Hsame.
  destruct (tryWhileNotComplete fuel (call op) taskName expBackoff hc)
    as [[b| |msg] hc1]; simpl in *; [left; by exists b|by right|by right].
Qed.

Lemma bind_pending {A} (m : M W A) (k : A → M W unit) (hc : HttpCommunicator.t W) :
  (∀ a hc1, k a hc1 = (Done tt, hc1)) →
  (bind m k hc).1 ≠ Done tt →
  (bind m k hc).2 = (m hc).2 ∧ ∀ a, (m hc).1 ≠ Done a.
Proof.
  intros Hk. unfold bind. destruct (m hc) as [[a| |msg] hc1]; simpl.
  - rewrite Hk. by intros [].
  - done.
  - done.
Qed.

(** X13.  For properties, messages and series the sent counter moves only
    when the insert has succeeded: an iteration of the dispatch loop on such
    a value that has not returned, because it is still retrying or because
    it panicked, has changed no counter. *)
Theorem dispatch_counts_after_success (fuel : nat) (received : Inbox)
    (hc : HttpCommunicator.t W) :
  (∀ entityTag, received ≠ OnEntityTag entityTag) →
  (dispatch fuel received hc).1 ≠ Done tt →
  HttpCommunicator.counters (dispatch fuel received hc).2 = HttpCommunicator.counters hc.
Proof.
  intros Hkind Hnot. unfold dispatch in *.
  apply bind_pending in Hnot as [-> Hinner]; [|done].
  destruct received as [entityTag|propertyCommands|messageCommands|seriesChunk].
  - by destruct (Hkind entityTag).
  - case_decide; [|by destruct (Hinner (NewExpBackoff (100 * Millisecond) (5 * Minute)))].
    match goal with |- context [tryWhileNotComplete fuel (call ?op) ?name ?b] =>
      match goal with |- context [atomic_AddUint64_sent ?on ?delta] =>
        destruct (insert_then_count_pending fuel op name b on delta hc) as [[b' Hb]|Hc]
      end
    end; [by destruct (Hinner b')|done].
  - case_decide; [|by destruct (Hinner (NewExpBackoff (100 * Millisecond) (5 * Minute)))].
    match goal with |- context [tryWhileNotComplete fuel (call ?op) ?name ?b] =>
      match goal with |- context [atomic_AddUint64_sent ?on ?delta] =>
        destruct (insert_then_count_pending fuel op name b on delta hc) as [[b' Hb]|Hc]
      end
    end; [by destruct (Hinner b')|done].
  - destruct (seriesCommandsChunkToSeries seriesChunk) as [[series drained]|msg]; [|done].
    case_decide; [|by destruct (Hinner (NewExpBackoff (100 * Millisecond) (5 * Minute)))].
    match goal with |- context [tryWhileNotComplete fuel (call ?op) ?name ?b] =>
      match goal with |- context [atomic_AddUint64_sent ?on ?delta] =>
        destruct (insert_then_count_pending fuel op name b on delta hc) as [[b' Hb]|Hc]
      end
    end; [by destruct (Hinner b')|done].
Qed.

End dispatch_further.

(** ** The entity path of the dispatch loop *)

Section dispatch_entities.
Context {W : Type} {store : StoreClient W} {B : Type} {policy : Backoff B} {order : GoRange}.

Lemma dispatch_entity_Done (fuel : nat) (entity : Entity.t) (expBackoff expBackoff' : B)
    (hc hc' : HttpCommunicator.t W) :
  dispatch_entity fuel entity expBackoff hc = (Done expBackoff', hc') →
  HttpCommunicator.counters hc'
  = httpCounters.on_entityTag (counter.add_sent 1) (HttpCommunicator.counters hc).
Proof.
  unfold dispatch_entity. intros Hrun.
  apply bind_Done_inv in Hrun as (err & hc1 & Hcall & Hrun).
  apply bind_Done_inv in Hrun as (b1 & hc2 & Hretry & Hrun).
  apply bind_Done_inv in Hrun as ([] & hc3 & Hadd & Hrun).
  injection Hrun as _ <-. injection Hadd as <-. simpl.
  f_equal.
  assert (HttpCommunicator.counters hc1 = HttpCommunicator.counters hc) as <-.
  { by injection Hcall as _ <-. }
  destruct err as [e|].
  - pose proof (preserves_tryWhileNotComplete id fuel (call (EntitiesCreate entity))
                  "entity update" expBackoff (preserves_call id _) hc1) as Hsame.
    rewrite Hretry in Hsame. exact Hsame.
  - by injection Hretry as _ <-.
Qed.

Lemma for_each_dispatch_entity_Done (fuel : nat) (entities : list Entity.t) :
  ∀ (expBackoff expBackoff' : B) (hc hc' : HttpCommunicator.t W),
    for_each (dispatch_entity fuel) entities expBackoff hc = (Done expBackoff', hc') →
    HttpCommunicator.counters hc'
    = Nat.iter (length entities) (httpCounters.on_entityTag (counter.add_sent 1))
        (HttpCommunicator.counters hc).
Proof.
  induction entities as [|entity entities IH]; intros b b' hc hc' Hrun; simpl in Hrun.
  - by injection Hrun as _ <-.
  - apply bind_Done_inv in Hrun as (b1 & hc1 & Hfirst & Hrest).
    rewrite (IH _ _ _ _ Hrest), (dispatch_entity_Done _ _ _ _ _ _ Hfirst).
    simpl. apply Nat.iter_swap.
Qed.

Lemma iter_add_sent (n : nat) (c : httpCounters.t) :
  httpCounters.series (Nat.iter n (httpCounters.on_entityTag (counter.add_sent 1)) c)
  = httpCounters.series c
  ∧ httpCounters.prop (Nat.iter n (httpCounters.on_entityTag (counter.add_sent 1)) c)
    = httpCounters.prop c
  ∧ httpCounters.messages (Nat.iter n (httpCounters.on_entityTag (counter.add_sent 1)) c)
    = httpCounters.messages c
  ∧ counter.dropped
      (httpCounters.entityTag (Nat.iter n (httpCounters.on_entityTag (counter.add_sent 1)) c))
    = counter.dropped (httpCounters.entityTag c)
  ∧ (counter.sent
       (httpCounters.entityTag
          (Nat.iter n (httpCounters.on_entityTag (counter.add_sent 1)) c)) `mod` 2 ^ 64
     = (counter.sent (httpCounters.entityTag c) + Z.of_nat n) `mod` 2 ^ 64)%Z.
Proof.
  induction n as [|n (Hs & Hp & Hm & Hd & Hsent)].
  - simpl. repeat split. by rewrite Z.add_0_r.
  - rewrite Nat.iter_succ. simpl. repeat split; try done.
    unfold AddUint64. rewrite Z.mod_mod by lia.
    rewrite <- Z.add_mod_idemp_l, Hsent, Z.add_mod_idemp_l by lia.
    f_equal. lia.
Qed.

(** X14.  When an iteration of the dispatch loop on an entity-tag batch
    returns, it has added one to the entity-tag sent counter for every
    command of the batch (the counter is a [uint64], so modulo 2^64) and
    changed no other counter. *)
Theorem dispatch_counts_every_entity (fuel : nat) (entityTag : list EntityTagCommand.t)
    (hc hc' : HttpCommunicator.t W) :
  dispatch fuel (OnEntityTag entityTag) hc = (Done tt, hc') →
  httpCounters.series (HttpCommunicator.counters hc')
  = httpCounters.series (HttpCommunicator.counters hc)
  ∧ httpCounters.prop (HttpCommunicator.counters hc')
    = httpCounters.prop (HttpCommunicator.counters hc)
  ∧ httpCounters.messages (HttpCommunicator.counters hc')
    = httpCounters.messages (HttpCommunicator.counters hc)
  ∧ counter.dropped (httpCounters.entityTag (HttpCommunicator.counters hc'))
    = counter.dropped (httpCounters.entityTag (HttpCommunicator.counters hc))
  ∧ (counter.sent (httpCounters.entityTag (HttpCommunicator.counters hc')) `mod` 2 ^ 64
     = (counter.sent (httpCounters.entityTag (HttpCommunicator.counters hc))
        + Z.of_nat (length entityTag)) `mod` 2 ^ 64)%Z.
Proof.
  unfold dispatch. intros Hrun.
  apply bind_Done_inv in Hrun as (b & hc1 & Hloop & Hret).
  injection Hret as <-.
  rewrite (for_each_dispatch_entity_Done _ _ _ _ _ _ Hloop).
  rewrite entityTagCommandsToEntities_fmap, length_fmap.
  apply iter_add_sent.
Qed.

(** X15.  In the dispatch loop, unlike in [PriorSendData], the fallback
    [Entities.Create] is retried: on a batch of one command whose update
    fails and whose creation fails [N] times and then succeeds, the
    iteration makes the update call and then [N + 1] creation calls,
    sleeping for the first [N] waits of a fresh policy in between, and
    counts the entity as sent once. *)
Theorem dispatch_retries_entity_creation (N fuel : nat) (command : EntityTagCommand.t)
    (err : Err) (w1 : W) (hc : HttpCommunicator.t W) :
  respond (EntitiesUpdate (entityTagCommandToEntity command)) (HttpCommunicator.client hc)
  = (Some err, w1) →
  fails_then_succeeds N (EntitiesCreate (entityTagCommandToEntity command)) w1 →
  N < fuel →
  ∃ evs,
    dispatch fuel (OnEntityTag [command]) hc
    = (Done tt,
       {| HttpCommunicator.client :=
            world_after (S N) (EntitiesCreate (entityTagCommandToEntity command)) w1;
          HttpCommunicator.counters :=
            httpCounters.on_entityTag (counter.add_sent 1) (HttpCommunicator.counters hc);
          HttpCommunicator.offered := HttpCommunicator.offered hc;
          HttpCommunicator.trace :=
            HttpCommunicator.trace hc ++
              EvCall (EntitiesUpdate (entityTagCommandToEntity command)) (Some err) :: evs |})
    ∧ length (calls evs) = N + 1
    ∧ Forall (λ c, c.1 = EntitiesCreate (entityTagCommandToEntity command)) (calls evs)
    ∧ sleeps evs = durations N (NewExpBackoff (100 * Millisecond) (5 * Minute) : B).
Proof.
  intros Hupdate Hcreate Hfuel.
  destruct (insert_then_count N fuel (EntitiesCreate (entityTagCommandToEntity command))
              "entity update" (NewExpBackoff (100 * Millisecond) (5 * Minute))
              httpCounters.on_entityTag 1
              {| HttpCommunicator.client := w1;
                 HttpCommunicator.counters := HttpCommunicator.counters hc;
                 HttpCommunicator.offered := HttpCommunicator.offered hc;
                 HttpCommunicator.trace :=
                   HttpCommunicator.trace hc ++
                     [EvCall (EntitiesUpdate (entityTagCommandToEntity command)) (Some err)] |}
              Hcreate Hfuel) as (evs & Hrun & Hfacts).
  exists evs. split; [|done].
  assert (call (EntitiesUpdate (entityTagCommandToEntity command)) hc
          = (Done (Some err),
             {| HttpCommunicator.client := w1;
                HttpCommunicator.counters := HttpCommunicator.counters hc;
                HttpCommunicator.offered := HttpCommunicator.offered hc;
                HttpCommunicator.trace :=
                  HttpCommunicator.trace hc ++
                    [EvCall (EntitiesUpdate (entityTagCommandToEntity command))
                       (Some err)] |})) as Hcall.
  { unfold call. by rewrite Hupdate. }
  simpl in Hrun. rewrite <- app_assoc in Hrun. simpl in Hrun.
  assert (dispatch_entity fuel (entityTagCommandToEntity command)
            (NewExpBackoff (100 * Millisecond) (5 * Minute)) hc
          = (Done (Reset (advance N (NewExpBackoff (100 * Millisecond) (5 * Minute)))),
             {| HttpCommunicator.client :=
                  world_after (S N) (EntitiesCreate (entityTagCommandToEntity command)) w1;
                HttpCommunicator.counters :=
                  httpCounters.on_entityTag (counter.add_sent 1)
                    (HttpCommunicator.counters hc);
                HttpCommunicator.offered := HttpCommunicator.offered hc;
                HttpCommunicator.trace :=
                  HttpCommunicator.trace hc ++
                    EvCall (EntitiesUpdate (entityTagCommandToEntity command)) (Some err)
                    :: evs |})) as Hentity.
  { unfold dispatch_entity. rewrite (bind_Done_eq _ _ _ _ _ Hcall). exact Hrun. }
  unfold dispatch.
  change (entityTagCommandsToEntities [command]) with [entityTagCommandToEntity command].
  change (for_each (dispatch_entity fuel) [entityTagCommandToEntity command]
            (NewExpBackoff (100 * Millisecond) (5 * Minute)))
    with (bind (dispatch_entity fuel (entityTagCommandToEntity command)
                  (NewExpBackoff (100 * Millisecond) (5 * Minute)))
               (λ s' : B, ret s' : M W B)).
  unfold bind at 1 2. by rewrite Hentity.
Qed.

End dispatch_entities.

(** ** A nil timestamp in [PriorSendData] *)

Section prior_further.
Context {W : Type} {store : StoreClient W} {order : GoRange}.

Lemma bind_Done_fst {A A'} (m : M W A) (k : A → M W A') hc a :
  (m hc).1 = Done a → bind m k hc = k a (m hc).2.
Proof. unfold bind. destruct (m hc) as [o hc1]. simpl. by intros ->. Qed.

(** The loop over the entities: every entity gets its update call. *)
Lemma prior_entities_calls (entities : list Entity.t) :
  ∀ hc : HttpCommunicator.t W,
    ∃ evs,
      HttpCommunicator.trace (for_each prior_entity entities tt hc).2
      = HttpCommunicator.trace hc ++ evs
      ∧ (∀ entity, entity ∈ entities → ∃ err, (EntitiesUpdate entity, err) ∈ calls evs)
      ∧ Forall no_series_or_message_insert evs
      ∧ length (calls evs) ≤ 2 * length entities.
Proof.
  induction entities as [|entity entities IH]; intros hc.
  - exists []. simpl. rewrite app_nil_r. split; [done|]. split; [|split; [constructor|lia]].
    by intros entity ?%not_elem_of_nil.
  - change (for_each prior_entity (entity :: entities) tt)
      with (bind (prior_entity entity tt) (λ s', for_each prior_entity entities s')).
    assert (∃ hc1 err rest,
              prior_entity entity tt hc = (Done tt, hc1)
              ∧ HttpCommunicator.trace hc1
                = HttpCommunicator.trace hc ++ EvCall (EntitiesUpdate entity) err :: rest
              ∧ Forall no_series_or_message_insert rest
              ∧ length (calls rest) ≤ 1) as (hc1 & err & rest & Hrun & Htr & Hrest & Hn).
    { unfold prior_entity, bind, call, glog_Error, emit, ret. simpl.
      destruct (respond (EntitiesUpdate entity) _) as [[e|] w1]; simpl.
      - destruct (respond (EntitiesCreate entity) w1) as [[e'|] w2]; simpl;
          eexists _, (Some e), _; (split; [done|]); simpl; rewrite <- ?app_assoc; simpl;
          (split; [done|]); (split; [by repeat constructor|simpl; lia]).
      - eexists _, None, []. split; [done|]. simpl.
        split; [done|]. split; [constructor|simpl; lia]. }
    rewrite (bind_Done_eq _ _ _ _ _ Hrun).
    destruct (IH hc1) as (evs & Htr' & Hupd & Hev & Hlen).
    exists (EvCall (EntitiesUpdate entity) err :: rest ++ evs).
    rewrite Htr', Htr. split; [by rewrite <- app_assoc|]. split; [|split].
    + intros entity' [->|Hin]%elem_of_cons.
      * exists err. simpl. apply list_elem_of_here.
      * destruct (Hupd entity' Hin) as [err' Hcall]. exists err'.
        simpl. apply list_elem_of_further. rewrite calls_app. apply elem_of_app. by right.
    + constructor; [done|]. by apply Forall_app.
    + simpl. rewrite calls_app, length_app. simpl. lia.
Qed.

(** X16.  When the series batch given to [PriorSendData] has a command
    without a timestamp, the call panics with "Nil timestamp!" after it has
    written the entities and the properties and before it sends any series
    or message: it leaves the communicator as the call with the same
    entity-tag and property batches and nothing else would, which returns.
    Every entity has had its update call and a non-empty property batch its
    insert call; no series and no message insert has been called. *)
Theorem PriorSendData_panics_on_nil_timestamp seriesCommands entityTagCommands
    propertyCommands messageCommands (hc : HttpCommunicator.t W) :
  Exists (λ c, SeriesCommand.Timestamp c = None) seriesCommands →
  ∃ evs,
    PriorSendData seriesCommands entityTagCommands propertyCommands messageCommands hc
    = (Crashed "Nil timestamp!",
       (PriorSendData [] entityTagCommands propertyCommands [] hc).2)
    ∧ (PriorSendData [] entityTagCommands propertyCommands [] hc).1 = Done tt
    ∧ HttpCommunicator.trace (PriorSendData [] entityTagCommands propertyCommands [] hc).2
      = HttpCommunicator.trace hc ++ evs
    ∧ (∀ command, command ∈ entityTagCommands →
         ∃ err, (EntitiesUpdate (entityTagCommandToEntity command), err) ∈ calls evs)
    ∧ (propertyCommands ≠ [] →
         ∃ err, (PropertiesInsert (propertyCommandsToProperties propertyCommands), err)
                ∈ calls evs)
    ∧ Forall no_series_or_message_insert evs
    ∧ length (calls evs) ≤ 2 * length entityTagCommands + 1.
Proof.
  intros Hex.
  pose proof (seriesCommandsToSeries_loop_nil_timestamp seriesCommands [] Hex) as Hpanic.
  assert (0 < length seriesCommands) as Hlen by (destruct Hex; simpl; lia).
  destruct (prior_entities_calls (entityTagCommandsToEntities entityTagCommands) hc)
    as (evs1 & Htr1 & Hupd1 & Hev1 & Hn1).
  set (hc1 := (for_each prior_entity (entityTagCommandsToEntities entityTagCommands) tt
                 hc).2) in *.
  assert (∃ hc2 evs2,
            (if decide (0 < length propertyCommands) then
               bind (call (PropertiesInsert (propertyCommandsToProperties propertyCommands)))
                    (λ err, log_if_failed "Could not prior send property: " err)
             else ret tt) hc1 = (Done tt, hc2)
            ∧ HttpCommunicator.trace hc2 = HttpCommunicator.trace hc1 ++ evs2
            ∧ (propertyCommands ≠ [] →
                 ∃ err, (PropertiesInsert (propertyCommandsToProperties propertyCommands), err)
                        ∈ calls evs2)
            ∧ Forall no_series_or_message_insert evs2
            ∧ length (calls evs2) ≤ 1)
    as (hc2 & evs2 & Hprops & Htr2 & Hins2 & Hev2 & Hn2).
  { case_decide as Hp.
    - unfold bind, call, log_if_failed, glog_Error, emit, ret. simpl.
      destruct (respond _ _).1 as [e|]; simpl; eexists _, _; (split; [done|]); simpl.
      + rewrite <- app_assoc. split; [done|]. split; [|split].
        * intros _. eexists. simpl. apply list_elem_of_here.
        * by repeat constructor.
        * simpl; lia.
      + split; [done|]. split; [|split].
        * intros _. eexists. simpl. apply list_elem_of_here.
        * by repeat constructor.
        * simpl; lia.
    - exists hc1, []. rewrite app_nil_r.
      split; [done|]. split; [done|]. split; [|split; [constructor|simpl; lia]].
      intros Hne. destruct propertyCommands; [done|simpl in Hp; lia]. }
  assert (PriorSendData [] entityTagCommands propertyCommands [] hc = (Done tt, hc2))
    as Hshort.
  { unfold PriorSendData.
    rewrite (bind_Done_fst _ _ _ tt) by apply for_each_prior_entity_Done.
    fold hc1. by rewrite (bind_Done_eq _ _ _ _ _ Hprops). }
  exists (evs1 ++ evs2). rewrite Hshort. simpl. split; [|split; [done|]].
  { unfold PriorSendData.
    rewrite (bind_Done_fst _ _ _ tt) by apply for_each_prior_entity_Done.
    fold hc1. rewrite (bind_Done_eq _ _ _ _ _ Hprops).
    rewrite decide_True by done. unfold seriesCommandsToSeries. rewrite Hpanic.
    by unfold bind, crash. }
  rewrite Htr2, Htr1, calls_app, length_app.
  split; [by rewrite app_assoc|]. split; [|split; [|split]].
  - intros command Hin.
    destruct (Hupd1 (entityTagCommandToEntity command)) as [err Hcall].
    { rewrite entityTagCommandsToEntities_fmap. apply list_elem_of_fmap. by exists command. }
    exists err. apply elem_of_app. by left.
  - intros Hne. destruct (Hins2 Hne) as [err Hcall]. exists err. apply elem_of_app. by right.
  - by apply Forall_app.
  - rewrite entityTagCommandsToEntities_fmap, length_fmap in Hn1. lia.
Qed.

End prior_further.

(** ** The further properties on the test doubles *)

Lemma dispatch_inserts_and_counts_witness :
  2 < 5
  ∧ @seriesCommandsChunkToSeries listed_range [cpu_first; cpu_second]
    = Ok ([cpu_grouped], [])
  ∧ [cpu_grouped] ≠ []
  ∧ @fails_then_succeeds _ scripted_client 2 (SeriesInsert [cpu_grouped]) flaky_store
  ∧ ∃ evs,
      @dispatch _ scripted_client _ exp_backoff listed_range 5
        (OnSeriesChunk [cpu_first; cpu_second]) (NewHttpCommunicator flaky_store)
      = (Done tt,
         {| HttpCommunicator.client := [];
            HttpCommunicator.counters :=
              httpCounters.on_series (counter.add_sent 1) httpCounters.zero;
            HttpCommunicator.offered := [];
            HttpCommunicator.trace := [] ++ evs |})
      ∧ length (calls evs) = 2 + 1
      ∧ Forall (λ c, c.1 = SeriesInsert [cpu_grouped]) (calls evs)
      ∧ sleeps evs
        = @durations _ exp_backoff 2 (ExpBackoff.New (100 * Millisecond) (5 * Minute)).
Proof.
  assert (2 < 5) as Hfuel by lia.
  assert (@seriesCommandsChunkToSeries listed_range [cpu_first; cpu_second]
          = Ok ([cpu_grouped], [])) as Htransform by (by vm_compute).
  assert ([cpu_grouped] ≠ []) as Hne by done.
  assert (@fails_then_succeeds _ scripted_client 2 (SeriesInsert [cpu_grouped]) flaky_store)
    as Hflaky by (simpl; eauto).
  split; [exact Hfuel|]. split; [exact Htransform|]. split; [exact Hne|].
  split; [exact Hflaky|].
  exact (proj2 (proj2
           (@dispatch_inserts_and_counts _ scripted_client _ exp_backoff listed_range
              2 5 (NewHttpCommunicator flaky_store) Hfuel))
           [cpu_first; cpu_second] [cpu_grouped] [] Htransform Hne Hflaky).
Defined.

Lemma dispatch_panics_on_nil_timestamp_witness :
  Exists (λ c, SeriesCommand.Timestamp c = None ∧ populated c) [cpu_first; cpu_unstamped]
  ∧ @dispatch _ scripted_client _ exp_backoff listed_range 5
      (OnSeriesChunk [cpu_first; cpu_unstamped]) (NewHttpCommunicator [])
    = (Crashed "Nil timestamp!", NewHttpCommunicator []).
Proof.
  assert (Exists (λ c, SeriesCommand.Timestamp c = None ∧ populated c)
                 [cpu_first; cpu_unstamped]) as Hex.
  { apply Exists_cons_tl, Exists_cons_hd. split; [reflexivity|].
    intros Hempty. by vm_compute in Hempty. }
  split; [exact Hex|].
  exact (@dispatch_panics_on_nil_timestamp _ scripted_client _ exp_backoff listed_range
           5 [cpu_first; cpu_unstamped] (NewHttpCommunicator []) Hex).
Defined.

Lemma dispatch_counts_after_success_witness :
  (∀ entityTag, OnPropertyCommands [host_property] ≠ OnEntityTag entityTag)
  ∧ (@dispatch _ unreachable_client _ exp_backoff listed_range 4
       (OnPropertyCommands [host_property]) (NewHttpCommunicator tt)).1 ≠ Done tt
  ∧ HttpCommunicator.counters
      (@dispatch _ unreachable_client _ exp_backoff listed_range 4
         (OnPropertyCommands [host_property]) (NewHttpCommunicator tt)).2
    = httpCounters.zero.
Proof.
  assert (∀ entityTag, OnPropertyCommands [host_property] ≠ OnEntityTag entityTag)
    as Hkind by done.
  assert ((@dispatch _ unreachable_client _ exp_backoff listed_range 4
             (OnPropertyCommands [host_property]) (NewHttpCommunicator tt)).1 ≠ Done tt)
    as Hpending by (by vm_compute).
  split; [exact Hkind|]. split; [exact Hpending|].
  exact (@dispatch_counts_after_success _ unreachable_client _ exp_backoff listed_range
           4 (OnPropertyCommands [host_property]) (NewHttpCommunicator tt) Hkind Hpending).
Defined.

Lemma dispatch_counts_every_entity_witness :
  @dispatch _ scripted_client _ exp_backoff listed_range 5
    (OnEntityTag [host_tags; host_tags]) (NewHttpCommunicator refusing_once)
  = (Done tt, entities_state)
  ∧ httpCounters.series (HttpCommunicator.counters entities_state) = counter.zero
  ∧ httpCounters.prop (HttpCommunicator.counters entities_state) = counter.zero
  ∧ httpCounters.messages (HttpCommunicator.counters entities_state) = counter.zero
  ∧ counter.dropped (httpCounters.entityTag (HttpCommunicator.counters entities_state)) = 0%Z
  ∧ (counter.sent (httpCounters.entityTag (HttpCommunicator.counters entities_state))
       `mod` 2 ^ 64
     = (0 + Z.of_nat (length [host_tags; host_tags])) `mod` 2 ^ 64)%Z.
Proof.
  assert (@dispatch _ scripted_client _ exp_backoff listed_range 5
            (OnEntityTag [host_tags; host_tags]) (NewHttpCommunicator refusing_once)
          = (Done tt, entities_state)) as Hrun by (by vm_compute).
  split; [exact Hrun|].
  exact (@dispatch_counts_every_entity _ scripted_client _ exp_backoff listed_range
           5 [host_tags; host_tags] (NewHttpCommunicator refusing_once) entities_state Hrun).
Defined.

Lemma dispatch_retries_entity_creation_witness :
  @respond _ scripted_client (EntitiesUpdate (@entityTagCommandToEntity listed_range host_tags))
    [Some "503"; Some "409"]
  = (Some "503", [Some "409"])
  ∧ @fails_then_succeeds _ scripted_client 1
      (EntitiesCreate (@entityTagCommandToEntity listed_range host_tags)) [Some "409"]
  ∧ 1 < 5
  ∧ ∃ evs,
      @dispatch _ scripted_client _ exp_backoff listed_range 5 (OnEntityTag [host_tags])
        (NewHttpCommunicator [Some "503"; Some "409"])
      = (Done tt,
         {| HttpCommunicator.client := [];
            HttpCommunicator.counters :=
              httpCounters.on_entityTag (counter.add_sent 1) httpCounters.zero;
            HttpCommunicator.offered := [];
            HttpCommunicator.trace :=
              [] ++ EvCall (EntitiesUpdate (@entityTagCommandToEntity listed_range host_tags))
                      (Some "503") :: evs |})
      ∧ length (calls evs) = 1 + 1
      ∧ Forall (λ c, c.1 = EntitiesCreate (@entityTagCommandToEntity listed_range host_tags))
               (calls evs)
      ∧ sleeps evs
        = @durations _ exp_backoff 1 (ExpBackoff.New (100 * Millisecond) (5 * Minute)).
Proof.
  assert (@fails_then_succeeds _ scripted_client 1
            (EntitiesCreate (@entityTagCommandToEntity listed_range host_tags))
            [Some "409"]) as Hcreate by (simpl; eauto).
  assert (1 < 5) as Hfuel by lia.
  split; [reflexivity|]. split; [exact Hcreate|]. split; [exact Hfuel|].
  exact (@dispatch_retries_entity_creation _ scripted_client _ exp_backoff listed_range
           1 5 host_tags "503" [Some "409"] (NewHttpCommunicator [Some "503"; Some "409"])
           eq_refl Hcreate Hfuel).
Defined.

Lemma PriorSendData_panics_on_nil_timestamp_witness :
  Exists (λ c, SeriesCommand.Timestamp c = None) [cpu_first; cpu_unstamped]
  ∧ ∃ evs,
      @PriorSendData _ scripted_client listed_range [cpu_first; cpu_unstamped] [host_tags]
        [host_property] [disk_warning] (NewHttpCommunicator [])
      = (Crashed "Nil timestamp!",
         (@PriorSendData _ scripted_client listed_range [] [host_tags] [host_property] []
            (NewHttpCommunicator [])).2)
      ∧ (@PriorSendData _ scripted_client listed_range [] [host_tags] [host_property] []
           (NewHttpCommunicator [])).1 = Done tt
      ∧ HttpCommunicator.trace
          (@PriorSendData _ scripted_client listed_range [] [host_tags] [host_property] []
             (NewHttpCommunicator [])).2
        = [] ++ evs
      ∧ (∀ command, command ∈ [host_tags] →
           ∃ err, (EntitiesUpdate (@entityTagCommandToEntity listed_range command), err)
                  ∈ calls evs)
      ∧ ([host_property] ≠ [] →
           ∃ err, (PropertiesInsert (@propertyCommandsToProperties [host_property]), err)
                  ∈ calls evs)
      ∧ Forall no_series_or_message_insert evs
      ∧ length (calls evs) ≤ 2 * length [host_tags] + 1.
Proof.
  assert (Exists (λ c, SeriesCommand.Timestamp c = None) [cpu_first; cpu_unstamped]) as Hex.
  { apply Exists_cons_tl, Exists_cons_hd. reflexivity. }
  split; [exact Hex|].
  exact (@PriorSendData_panics_on_nil_timestamp _ scripted_client listed_range
           [cpu_first; cpu_unstamped] [host_tags] [host_property] [disk_warning]
           (NewHttpCommunicator []) Hex).
Defined.

(** The panic of [PriorSendData], evaluated: the entity is updated and the
    property inserted, then the call stops. *)
Example prior_send_panics_midway :
  @PriorSendData _ scripted_client listed_range [cpu_first; cpu_unstamped] [host_tags]
    [host_property] [disk_warning] (NewHttpCommunicator [])
  = (Crashed "Nil timestamp!",
     {| HttpCommunicator.client := [];
        HttpCommunicator.counters := httpCounters.zero;
        HttpCommunicator.offered := [];
        HttpCommunicator.trace :=
          [ EvCall (EntitiesUpdate host_entity) None;
            EvCall (PropertiesInsert
                      [ {| Property.PropType := "docker.host"; Property.Entity := "host-1";
                           Property.Key := ∅; Property.Tags := {[ "kernel" := "6.1" ]};
                           Property.Timestamp := None |} ]) None ] |}).
Proof. by vm_compute. Qed.
